(** * Anna KaRNNa: the batcher and the sampler of the character-level RNN

    A shallow embedding of the plain-Python part of the notebook
    [intro-to-rnns/Anna KaRNNa.ipynb] (the copy under [tensorboard/] has the
    same [split_data], [get_batch] and [pick_top_n]; its [sample] first
    overwrites [prime] with "Far"):

      - [split_data] and [get_batch], which slice the encoded corpus into
        training windows;
      - [pick_top_n] and [sample], which draw characters from the network's
        predictions.

    Modelling conventions.
      - Python integers are [Z]; [len] is the list length injected into [Z].
      - 1-D numpy arrays are lists; 2-D arrays carry their [shape] next to
        their rows, because numpy keeps the column count of an array
        without rows.
      - Slices follow Python's rules for negative and out-of-range bounds.
      - Exceptions are values of [exn]; a call returns [Ok v] or [Raise e].
      - Probabilities are exact rationals ([Q]) instead of IEEE doubles, so
        the tolerance of numpy's checks becomes equality ([==]).
      - The trained network (the TensorFlow session) is a parameter: a
        function from an input code and a recurrent state to a prediction
        vector and the next state.
      - numpy's global random generator is the stream of uniform draws it
        would hand out, threaded through the calls. *)

From Stdlib Require Import ZArith QArith Lqa Lia Ascii String.
From stdpp Require Import base list gmap strings sorting.

(** ** Python values and exceptions *)

Module Py.

Inductive exn : Type :=
  | ZeroDivisionError
  | ValueError
  | IndexError
  | KeyError (key : ascii + Z)
  | UnboundLocalError (name : string).

Inductive result (A : Type) : Type :=
  | Ok (a : A)
  | Raise (e : exn).

Arguments Ok {A} a.
Arguments Raise {A} e.

#[global] Instance result_ret : MRet result := λ A a, Ok a.

#[global] Instance result_bind : MBind result := λ A B k r,
  match r with
  | Ok a => k a
  | Raise e => Raise e
  end.

Definition is_ok {A : Type} (r : result A) : bool :=
  match r with Ok _ => true | Raise _ => false end.

Definition len {A : Type} (l : list A) : Z := Z.of_nat (length l).

(** [int(a / b)] on integers: true division, then truncation towards zero.
    The quotient of the doubles is exact enough for this as long as both
    integers stay below 2^53. *)
Definition int_div (a b : Z) : result Z :=
  if (b =? 0)%Z then Raise ZeroDivisionError else Ok (Z.quot a b).

(** [int(n * f)] for an integer [n] and a fraction [f], the fraction taken
    as a rational. *)
Definition int_mul (n : Z) (f : Q) : Z :=
  Z.quot (n * Qnum f) (Z.pos (Qden f)).

(** A slice bound [i] on a sequence of length [n]: negative bounds count
    from the end, and every bound is clipped to [0..n]. *)
Definition clip_index (i : Z) (n : nat) : nat :=
  if (i <? 0)%Z then Z.to_nat (Z.max 0 (i + Z.of_nat n))
  else Z.to_nat (Z.min i (Z.of_nat n)).

Definition slice_lo (start : option Z) (n : nat) : nat :=
  match start with Some i => clip_index i n | None => 0 end.

Definition slice_hi (stop : option Z) (n : nat) : nat :=
  match stop with Some i => clip_index i n | None => n end.

(** [l[start:stop]] *)
Definition slice {A : Type} (start stop : option Z) (l : list A) : list A :=
  let lo := slice_lo start (length l) in
  let hi := slice_hi stop (length l) in
  take (hi - lo) (drop lo l).

(** [range(n)] *)
Definition range (n : Z) : list Z := Z.of_nat <$> seq 0 (Z.to_nat n).

End Py.

Import Py.

(** ** numpy arrays *)

Module Np.

(** A 2-D array: [shape = (rows, columns)]. *)
Record ndarray2 : Type := Array2 {
  shape : nat * nat;
  rows : list (list Z)
}.

Definition wf (a : ndarray2) : Prop :=
  length (rows a) = (shape a).1 ∧
  Forall (λ r, length r = (shape a).2) (rows a).

(** [a[i][j]] *)
Definition at2 (a : ndarray2) (i j : nat) : option Z :=
  rows a !! i ≫= (.!! j).

(** [k] consecutive pieces of [w] elements each. *)
Fixpoint chunks {A : Type} (k w : nat) (l : list A) : list (list A) :=
  match k with
  | O => []
  | S k' => take w l :: chunks k' w (drop w l)
  end.

(** [np.split(a, sections)] with an integer [sections]: the array must
    divide into [sections] pieces of equal length. *)
Definition split {A : Type} (a : list A) (sections : Z) : result (list (list A)) :=
  if (sections =? 0)%Z then Raise ZeroDivisionError
  else if negb (len a mod sections =? 0)%Z then Raise ValueError
  else if (sections <? 0)%Z then Raise ValueError
  else Ok (chunks (Z.to_nat sections) (length a / Z.to_nat sections) a).

(** [np.stack(pieces)]: the pieces become the rows of a 2-D array. *)
Definition stack (pieces : list (list Z)) : result ndarray2 :=
  match pieces with
  | [] => Raise ValueError
  | r :: _ =>
      if forallb (λ r', length r' =? length r) pieces
      then Ok (Array2 (length pieces, length r) pieces)
      else Raise ValueError
  end.

(** [a[:, start:stop]] *)
Definition slice_cols (start stop : option Z) (a : ndarray2) : ndarray2 :=
  let c := (shape a).2 in
  Array2 ((shape a).1, slice_hi stop c - slice_lo start c)
         (slice start stop <$> rows a).

End Np.

Import Np.

(** ** The batcher *)

Module Batcher.

(** [split_data(chars, batch_size, num_steps, split_frac)] *)
Definition split_data (chars : list Z) (batch_size num_steps : Z) (split_frac : Q)
    : result (ndarray2 * ndarray2 * ndarray2 * ndarray2) :=
  let slice_size := (batch_size * num_steps)%Z in
  n_batches ← int_div (len chars) slice_size;
  let x := slice None (Some (n_batches * slice_size)%Z) chars in
  let y := slice (Some 1%Z) (Some (n_batches * slice_size + 1)%Z) chars in
  xs ← Np.split x batch_size;
  x ← stack xs;
  ys ← Np.split y batch_size;
  y ← stack ys;
  let split_idx := int_mul n_batches split_frac in
  let cut := (split_idx * num_steps)%Z in
  let train_x := slice_cols None (Some cut) x in
  let train_y := slice_cols None (Some cut) y in
  let val_x := slice_cols (Some cut) None x in
  let val_y := slice_cols (Some cut) None y in
  Ok (train_x, train_y, val_x, val_y).

(** [x[:, b*num_steps: (b+1)*num_steps]] *)
Definition window (num_steps : Z) (x : ndarray2) (b : Z) : ndarray2 :=
  slice_cols (Some (b * num_steps)%Z) (Some ((b + 1) * num_steps)%Z) x.

(** [get_batch(arrs, num_steps)]: the generator is the list of the values it
    yields, in order. *)
Definition get_batch (arrs : list ndarray2) (num_steps : Z)
    : result (list (list ndarray2)) :=
  match arrs with
  | [] => Raise IndexError
  | a0 :: _ =>
      let '(batch_size, slice_size) := shape a0 in
      n_batches ← int_div (Z.of_nat slice_size) num_steps;
      Ok ((λ b, (λ x, window num_steps x b) <$> arrs) <$> range n_batches)
  end.

(** The encoded corpus [[vocab_to_int[c] for c in text]]. *)
Definition encode (vocab_to_int : gmap ascii Z) (text : string) : result (list Z) :=
  foldr (λ c acc,
           match vocab_to_int !! c with
           | Some i => (l ← acc; Ok (i :: l))
           | None => Raise (KeyError (inl c))
           end) (Ok []) (list_ascii_of_string text).

End Batcher.

Import Batcher.

(** ** The sampler *)

Module Sampler.

(** numpy buffers live in a store; an array value is the address of its
    buffer, so that a view shares the buffer of the array it was taken
    from. *)
Abbreviation loc := nat.
Abbreviation store := (gmap nat (list Q)).

(** The contents of the buffer at [l]. *)
Definition buffer (σ : store) (l : loc) : list Q := default [] (σ !! l).

(** [np.squeeze(a)] of an array that has a single axis longer than one: a
    view on the same buffer. *)
Definition squeeze (a : loc) : loc := a.

(** [np.sum(p)] *)
Definition sum (p : list Q) : Q := foldr Qplus 0%Q p.

Fixpoint insert_sorted (x : Q * nat) (l : list (Q * nat)) : list (Q * nat) :=
  match l with
  | [] => [x]
  | y :: r => if Qle_bool x.1 y.1 then x :: y :: r else y :: insert_sorted x r
  end.

(** [np.argsort(p)]: the indices of [p] in ascending order of the values.
    Equal values keep their index order here; numpy's default sort leaves
    their order open. *)
Definition argsort (p : list Q) : list nat :=
  (foldr insert_sorted [] (zip p (seq 0 (length p)))).*2.

(** [p[idx] = 0] for an index array [idx]. *)
Definition zero_at (idx : list nat) (p : list Q) : list Q :=
  foldr (λ i acc, <[i := 0%Q]> acc) p idx.

(** The buffer after [p[np.argsort(p)[:-top_n]] = 0]. *)
Definition zero_all_but_top (top_n : Z) (p : list Q) : list Q :=
  zero_at (slice None (Some (- top_n)%Z) (argsort p)) p.

(** [p / s]. A division by zero leaves no finite array ([nan] and [inf]
    entries in numpy): [None]. *)
Definition true_divide (p : list Q) (s : Q) : option (list Q) :=
  if Qeq_bool s 0%Q then None else Some ((λ x, x / s)%Q <$> p).

(** The distribution [pick_top_n] draws from. *)
Definition top_n_distribution (top_n : Z) (p : list Q) : option (list Q) :=
  let z := zero_all_but_top top_n p in
  true_divide z (sum z).

(** [p.cumsum()] *)
Fixpoint cumsum_from (acc : Q) (p : list Q) : list Q :=
  match p with
  | [] => []
  | x :: r => (acc + x)%Q :: cumsum_from (acc + x)%Q r
  end.

Definition cumsum (p : list Q) : list Q := cumsum_from 0%Q p.

(** [cdf.searchsorted(u, side='right')] on a non-decreasing [cdf]: the
    position of the first entry greater than [u]. *)
Fixpoint searchsorted_right (cdf : list Q) (u : Q) : nat :=
  match cdf with
  | [] => 0
  | c :: r => if Qle_bool c u then S (searchsorted_right r u) else 0
  end.

(** [np.random.choice(a, 1, p=p)[0]] for an integer [a], where [u] is the
    uniform draw from [0, 1) that the generator hands out. [p = None] is an
    array with entries that are not finite. *)
Definition random_choice (a : Z) (p : option (list Q)) (u : Q) : result Z :=
  if (a <=? 0)%Z then Raise ValueError
  else match p with
  | None => Raise ValueError
  | Some p =>
      if negb (len p =? a)%Z then Raise ValueError
      else if existsb (λ x, negb (Qle_bool 0%Q x)) p then Raise ValueError
      else if negb (Qeq_bool (sum p) 1%Q) then Raise ValueError
      else Ok (Z.of_nat (searchsorted_right (cumsum p) u))
  end.

(** [pick_top_n(preds, vocab_size, top_n)]: the store after the call and
    the value returned. *)
Definition pick_top_n (preds : loc) (vocab_size : Z) (top_n : Z) (u : Q)
    (σ : store) : store * result Z :=
  let p := squeeze preds in
  let σ' := <[p := zero_all_but_top top_n (buffer σ p)]> σ in
  let p' := true_divide (buffer σ' p) (sum (buffer σ' p)) in
  (σ', random_choice vocab_size p' u).

(** The module-level names of the notebook: [vocab], [vocab_to_int] and
    [int_to_vocab]. *)
Record globals : Type := Globals {
  vocab : gset ascii;
  vocab_to_int : gmap ascii Z;
  int_to_vocab : gmap Z ascii
}.

(** The three names as the notebook builds them, for the order [cs] in
    which [set(text)] enumerates its characters. *)
Definition build_globals (cs : list ascii) : globals :=
  let numbered := zip (Z.of_nat <$> seq 0 (length cs)) cs in
  Globals (list_to_set cs)
          (list_to_map ((λ ic, (ic.2, ic.1)) <$> numbered))
          (list_to_map numbered).

(** The restored network in sampling mode: [sess.run(model.initial_state)]
    and [sess.run([model.preds, model.final_state], feed)] for the input
    code [x] and the state fed in. *)
Record network : Type := Network {
  net_state : Type;
  initial_state : net_state;
  run : Z → net_state → list Q * net_state
}.

(** [top_n=5], the default of [pick_top_n]. *)
Definition default_top_n : Z := 5.

Section Sample.

Variable g : globals.
Variable net : network.
(** The uniform draws of the global generator, in the order of use. *)
Variable draws : nat → Q.

(** A run of the network: the predictions come back in a new array. *)
Definition sess_run (x : Z) (st : net_state net) (σ : store)
    : loc * net_state net * store :=
  let '(v, st') := run net x st in
  let l := fresh (dom σ) in
  (l, st', <[l := v]> σ).

(** The priming loop [for c in prime: ...]; [preds] is [None] as long as
    the name is unbound. *)
Fixpoint prime_network (cs : list ascii) (preds : option loc)
    (st : net_state net) (σ : store)
    : result (option loc * net_state net * store) :=
  match cs with
  | [] => Ok (preds, st, σ)
  | c :: cs' =>
      match vocab_to_int g !! c with
      | None => Raise (KeyError (inl c))
      | Some x =>
          let '(l, st', σ') := sess_run x st σ in
          prime_network cs' (Some l) st' σ'
      end
  end.

(** The priming phase of [sample]: the loop over [prime], entered with
    [preds] unbound, the initial state of the network and no array. *)
Definition priming (prime : string)
    : result (option loc * net_state net * store) :=
  prime_network (list_ascii_of_string prime) None (initial_state net) ∅.

(** [samples.append(int_to_vocab[c])] *)
Definition append_char (samples : list ascii) (c : Z) : result (list ascii) :=
  match int_to_vocab g !! c with
  | None => Raise (KeyError (inr c))
  | Some ch => Ok (samples ++ [ch])
  end.

(** The loop [for i in range(n_samples): ...], with [n] iterations left;
    [k] draws have been used. *)
Fixpoint generate (n k : nat) (c : Z) (st : net_state net) (σ : store)
    (samples : list ascii) : result (list ascii) :=
  match n with
  | O => Ok samples
  | S n' =>
      let '(preds, st', σ1) := sess_run c st σ in
      let '(σ2, r) :=
        pick_top_n preds (Z.of_nat (size (vocab g))) default_top_n (draws k) σ1 in
      c' ← r;
      samples' ← append_char samples c';
      generate n' (S k) c' st' σ2 samples'
  end.

(** [sample(checkpoint, n_samples, lstm_size, vocab_size, prime)], where
    [net] is the network that [build_rnn] and [saver.restore] set up from
    [checkpoint], [lstm_size] and [vocab_size]; building and restoring are
    taken to succeed. The array [x] that feeds the network is its entry, the
    code of the character. *)
Definition sample (n_samples : Z) (prime : string) : result string :=
  let samples := list_ascii_of_string prime in
  '(preds, st, σ) ← priming prime;
  match (preds : option loc) with
  | None => Raise (UnboundLocalError "preds")
  | Some preds =>
      let '(σ1, r) :=
        pick_top_n preds (Z.of_nat (size (vocab g))) default_top_n (draws 0) σ in
      c ← r;
      samples' ← append_char samples c;
      out ← generate (Z.to_nat n_samples) 1 c st σ1 samples';
      Ok (string_of_list_ascii out)
  end.

End Sample.

End Sampler.

Import Sampler.

(** ** Notions used to state the properties *)

(** [Y[i][j] == X[i][j+1]] wherever column [j+1] exists in row [i] of [X]. *)
Definition shifted (X Y : ndarray2) : Prop :=
  ∀ i j v, at2 X i (S j) = Some v → at2 Y i j = Some v.

(** The array with [b] rows and no column. *)
Definition empty_cols (b : nat) : ndarray2 := Array2 (b, 0) (replicate b []).

(** The windows [ws], each with [b] rows, joined along the column axis. *)
Definition hconcat (b : nat) (ws : list ndarray2) : ndarray2 :=
  Array2 (b, sum_list ((λ w, (shape w).2) <$> ws))
         ((λ i, concat ((λ w, default [] (rows w !! i)) <$> ws)) <$> seq 0 b).

#[global] Instance Qeq_decision (x y : Q) : Decision (x == y)%Q := Qeq_dec x y.

(** [w] is the window of [a] that covers the [s] columns from column
    [b * s] on, with [rows_] rows. *)
Definition window_of (rows_ s : nat) (a : ndarray2) (b : nat) (w : ndarray2) : Prop :=
  wf w ∧ shape w = (rows_, s) ∧
  ∀ i j, j < s → at2 w i j = at2 a i (b * s + j).

(** The [k]-th array of every yielded list. *)
Definition component (rows_ k : nat) (ws : list (list ndarray2)) : list ndarray2 :=
  (λ w, default (empty_cols rows_) (w !! k)) <$> ws.

(** The order of [np.argsort]: by value. *)
Definition by_value : relation (Q * nat) := λ x y, (x.1 <= y.1)%Q.

(** The exceptions for a name that is read before it is bound. *)
Definition is_unbound (e : exn) : bool :=
  match e with UnboundLocalError _ => true | _ => false end.

(** 1 if entry [i] of [p] is not zero, else 0. *)
Definition nonzero_at (p : list Q) (i : nat) : nat :=
  match p !! i with
  | Some x => if decide (x == 0)%Q then 0 else 1
  | None => 0
  end.

(** The number of non-zero entries of [p]. *)
Definition count_nonzero (p : list Q) : nat :=
  length (filter (λ x, ¬ (x == 0)%Q) p).

(** [p'] is [p] with every entry outside its [top_n] largest set to zero:
    a set [K] of [min(top_n, len(p))] positions keeps its values, no value
    outside [K] exceeds a value inside, and the other positions hold zero. *)
Definition keeps_top (top_n : Z) (p p' : list Q) : Prop :=
  length p' = length p ∧
  ∃ K : list nat,
    NoDup K ∧ length K = Z.to_nat (Z.min top_n (len p)) ∧
    (∀ i, i ∈ K → i < length p) ∧
    (∀ i, i ∈ K → p' !! i = p !! i) ∧
    (∀ i, i < length p → i ∉ K → p' !! i = Some 0%Q) ∧
    (∀ i j x y, i ∈ K → j ∉ K → p !! i = Some x → p !! j = Some y → (y <= x)%Q).

(** A probability vector. *)
Definition is_distribution (p : list Q) : Prop :=
  Forall (λ x, 0 <= x)%Q p ∧ (Sampler.sum p == 1)%Q.







(** ** Examples *)

(** The vocabulary [{a: 0, b: 1, c: 2}]. *)
Definition abc_vocab : gmap ascii Z :=
  <["a"%char := 0%Z]> (<["b"%char := 1%Z]> (<["c"%char := 2%Z]> ∅)).

(** The prediction [[0.1, 0.05, 0.6, 0.05, 0.2]]. *)
Definition ex_p : list Q := [1 # 10; 1 # 20; 6 # 10; 1 # 20; 2 # 10].

(** A network over three characters that predicts [[1/2, 1/4, 1/4]]
    whatever it is fed. *)
Definition toy_net : network :=
  Network unit tt (λ x st, ([1 # 2; 1 # 4; 1 # 4], st)).

(** ** The vocabulary cell *)

Module Vocabulary.

(** [cs] is an order in which [set(text)] hands out its elements: every
    character of [text], once. [enumerate(vocab)] runs over the same set
    twice without a change in between, so both dictionaries see the same
    order. *)
Definition enumerates (cs : list ascii) (text : string) : Prop :=
  NoDup cs ∧ ∀ c, c ∈ cs ↔ c ∈ list_ascii_of_string text.

(** [np.max(a)] of a 1-D integer array; an empty array has no maximum. *)
Definition amax (a : list Z) : result Z :=
  match a with
  | [] => Raise ValueError
  | x :: r => Ok (foldl Z.max x r)
  end.

(** [np.max(chars)+1], the number of classes the notebook prints. *)
Definition n_classes (chars : list Z) : result Z :=
  m ← amax chars; Ok (m + 1)%Z.

(** [int_to_vocab[i]] for every code of an encoded text. *)
Definition decode (int_to_vocab : gmap Z ascii) (codes : list Z) : result string :=
  foldr (λ i acc,
           match int_to_vocab !! i with
           | Some c => (t ← acc; Ok (String c t))
           | None => Raise (KeyError (inr i))
           end) (Ok EmptyString) codes.

End Vocabulary.

Import Vocabulary.

(** ** Counting entries *)

#[global] Instance Qlt_decision (x y : Q) : Decision (x < y)%Q :=
  match Qlt_le_dec x y with
  | left H => left H
  | right H => right (Qle_not_lt _ _ H)
  end.

(** 1 if entry [i] of [p] is greater than [x], else 0. *)
Definition greater_at (x : Q) (p : list Q) (i : nat) : nat :=
  match p !! i with
  | Some y => if decide (x < y)%Q then 1 else 0
  | None => 0
  end.

(** The number of entries of [p] that are greater than [x]. *)
Definition count_greater (x : Q) (p : list Q) : nat :=
  length (filter (λ y, (x < y)%Q) p).

(** ** The copy of [sample] under [tensorboard/] *)

Module Tensorboard.

(** [sample(checkpoint, n_samples, lstm_size, vocab_size, prime)] of
    [tensorboard/Anna KaRNNa Name Scoped.ipynb]: its first statement is
    [prime = "Far"], the rest is the [sample] of the other notebook. *)
Definition sample (g : globals) (net : network) (draws : nat → Q)
    (n_samples : Z) (prime : string) : result string :=
  let prime := "Far"%string in
  Sampler.sample g net draws n_samples prime.

End Tensorboard.


(** ** The training cell *)

Module Training.

(** The graph and the session in training mode. [variables] is what the
    optimizer changes; [zero_state] is [sess.run(model.initial_state)];
    [train_run] is
    [sess.run([model.cost, model.final_state, model.optimizer], feed)] with
    the [keep_prob] of training, [eval_run] is
    [sess.run([model.cost, model.final_state], feed)] with [keep_prob] 1.
    Building the graph and running the session are taken to succeed; losses
    are rationals. *)
Record model : Type := Model {
  variables : Type;
  rnn_state : Type;
  zero_state : rnn_state;
  train_run : variables → ndarray2 → ndarray2 → rnn_state
              → Q * rnn_state * variables;
  eval_run : variables → ndarray2 → ndarray2 → rnn_state → Q * rnn_state
}.

(** The names the loops assign: the variables of the session, [new_state],
    [loss], and the checkpoints written so far, each with its iteration and
    the validation losses whose mean goes into its name. What is printed is
    left out. *)
Record loop_state (m : model) : Type := LoopState {
  vars : variables m;
  new_state : rnn_state m;
  loss : Q;
  saved : list (Z * list Q)
}.

Arguments LoopState {m}.
Arguments vars {m}.
Arguments new_state {m}.
Arguments loss {m}.
Arguments saved {m}.

(** [a % b] *)
Definition py_mod (a b : Z) : result Z :=
  if (b =? 0)%Z then Raise ZeroDivisionError else Ok (a mod b)%Z.

Section loops.

Variable m : model.
Variables train_x train_y val_x val_y : ndarray2.
Variables num_steps epochs save_every_n : Z.
Variables n_batches iterations : Z.

(** [for x, y in get_batch([val_x, val_y], num_steps): ...] over the items
    [ws] that are left. *)
Fixpoint validate_loop (ws : list (list ndarray2)) (v : variables m)
    (val_loss : list Q) (st : rnn_state m) : result (list Q * rnn_state m) :=
  match ws with
  | [] => Ok (val_loss, st)
  | [x; y] :: ws' =>
      let '(batch_loss, st') := eval_run m v x y st in
      validate_loop ws' v (val_loss ++ [batch_loss]) st'
  | _ :: _ => Raise ValueError
  end.

(** The validation pass of a checkpoint. *)
Definition validate (v : variables m) : result (list Q * rnn_state m) :=
  ws ← get_batch [val_x; val_y] num_steps;
  validate_loop ws v [] (zero_state m).

(** [(iteration%save_every_n == 0) or (iteration == iterations)] *)
Definition checkpoint_due (iteration : Z) : result bool :=
  r ← py_mod iteration save_every_n;
  Ok ((r =? 0)%Z || (iteration =? iterations)%Z).

(** The body of the loop over the training windows, for epoch [e] and the
    window [(x, y)] with number [b]. *)
Definition train_step (e b : Z) (x y : ndarray2) (s : loop_state m)
    : result (loop_state m) :=
  let iteration := (e * n_batches + b)%Z in
  let '(batch_loss, st, v) := train_run m (vars s) x y (new_state s) in
  let loss' := (loss s + batch_loss)%Q in
  due ← checkpoint_due iteration;
  if (due : bool) then
    '(val_loss, st_v) ← validate v;
    Ok (LoopState v st_v loss' (saved s ++ [(iteration, val_loss)]))
  else Ok (LoopState v st loss' (saved s)).

(** [for b, (x, y) in enumerate(get_batch([train_x, train_y], num_steps), 1)]
    over the items [ws] that are left, the next one with number [b]. *)
Fixpoint train_windows (ws : list (list ndarray2)) (e b : Z) (s : loop_state m)
    : result (loop_state m) :=
  match ws with
  | [] => Ok s
  | [x; y] :: ws' =>
      s' ← train_step e b x y s;
      train_windows ws' e (b + 1)%Z s'
  | _ :: _ => Raise ValueError
  end.

(** One epoch: the state and the running loss start afresh. *)
Definition train_epoch (e : Z) (s : loop_state m) : result (loop_state m) :=
  let s0 := LoopState (vars s) (zero_state m) 0%Q (saved s) in
  ws ← get_batch [train_x; train_y] num_steps;
  train_windows ws e 1 s0.

(** [for e in range(epochs): ...] over the epochs [es] that are left. *)
Fixpoint train_epochs (es : list Z) (s : loop_state m) : result (loop_state m) :=
  match es with
  | [] => Ok s
  | e :: es' => s' ← train_epoch e s; train_epochs es' s'
  end.

End loops.

(** The loops of the cell, from [n_batches = int(train_x.shape[1]/num_steps)]
    on, for the variables [v0] that [global_variables_initializer] leaves. *)
Definition train_loop (m : model) (train_x train_y val_x val_y : ndarray2)
    (num_steps epochs save_every_n : Z) (v0 : variables m)
    : result (loop_state m) :=
  n_batches ← int_div (Z.of_nat (shape train_x).2) num_steps;
  let iterations := (n_batches * epochs)%Z in
  train_epochs m train_x train_y val_x val_y num_steps save_every_n
               n_batches iterations (range epochs)
               (LoopState v0 (zero_state m) 0%Q []).

(** The cell: [split_data] with its default [split_frac=0.9], then the
    loops. *)
Definition train (m : model) (chars : list Z)
    (batch_size num_steps epochs save_every_n : Z) (v0 : variables m)
    : result (loop_state m) :=
  '(train_x, train_y, val_x, val_y) ← split_data chars batch_size num_steps (9 # 10);
  train_loop m train_x train_y val_x val_y num_steps epochs save_every_n v0.

End Training.

(** A model that counts: its variables are the number of training runs,
    its state the number of runs since the state was last zero. *)
Definition counting_model : Training.model :=
  Training.Model nat nat 0
    (λ v _ _ st, (1%Q, S st, S v))
    (λ v _ _ st, (0%Q, (10 + st)%nat)).

(** Iteration [i] writes a checkpoint. *)
Definition due (save_every_n iterations i : Z) : Prop :=
  (i mod save_every_n = 0 ∨ i = iterations)%Z.

#[global] Instance due_decision (save_every_n iterations i : Z) :
  Decision (due save_every_n iterations i) :=
  or_dec (Z.eq_dec (i mod save_every_n)%Z 0%Z) (Z.eq_dec i iterations).

(** ** Slices *)

Section slices.
Context {A : Type}.
Implicit Types l : list A.

Lemma clip_index_nonneg (i : Z) (n : nat) :
  (0 ≤ i)%Z → clip_index i n = Z.to_nat i `min` n.
Proof.
  intros Hi. unfold clip_index.
  destruct (Z.ltb_spec i 0); lia.
Qed.

Lemma slice_to l (k : Z) :
  (0 ≤ k)%Z → slice None (Some k) l = take (Z.to_nat k) l.
Proof.
  intros Hk. unfold slice; simpl.
  rewrite clip_index_nonneg by done.
  rewrite Nat.sub_0_r, drop_0.
  destruct (Nat.le_gt_cases (Z.to_nat k) (length l)).
  - by rewrite Nat.min_l.
  - rewrite Nat.min_r by lia. by rewrite !take_ge by lia.
Qed.

Lemma slice_from l (k : Z) :
  (0 ≤ k)%Z → slice (Some k) None l = drop (Z.to_nat k) l.
Proof.
  intros Hk. unfold slice; simpl.
  rewrite clip_index_nonneg by done.
  rewrite take_ge by (rewrite length_drop; lia).
  destruct (Nat.le_gt_cases (Z.to_nat k) (length l)).
  - by rewrite Nat.min_l.
  - rewrite Nat.min_r by lia. by rewrite !drop_ge by lia.
Qed.

Lemma slice_between l (a b : Z) :
  (0 ≤ a)%Z → (0 ≤ b)%Z →
  slice (Some a) (Some b) l = take (Z.to_nat b - Z.to_nat a) (drop (Z.to_nat a) l).
Proof.
  intros Ha Hb. unfold slice; simpl.
  rewrite !clip_index_nonneg by done.
  destruct (Nat.le_gt_cases (Z.to_nat a) (length l)).
  - rewrite (Nat.min_l (Z.to_nat a)) by done.
    destruct (Nat.le_gt_cases (Z.to_nat b) (length l)).
    + by rewrite Nat.min_l.
    + rewrite Nat.min_r by lia.
      by rewrite !take_ge by (rewrite length_drop; lia).
  - by rewrite !drop_ge, !take_nil by lia.
Qed.

End slices.

(** ** Pieces of an array *)

Section pieces.
Context {A : Type}.
Implicit Types l : list A.

Lemma length_chunks (k w : nat) l : length (chunks k w l) = k.
Proof. revert l. induction k as [|k IH]; intros l; simpl; [done|]. by rewrite IH. Qed.

Lemma chunks_lookup (k w i : nat) l :
  i < k → chunks k w l !! i = Some (take w (drop (i * w) l)).
Proof.
  revert l i. induction k as [|k IH]; intros l i Hi; [lia|].
  destruct i as [|i]; simpl.
  - by rewrite drop_0.
  - rewrite IH by lia. by rewrite drop_drop.
Qed.

Lemma chunks_nil (k : nat) : chunks k 0 (@nil A) = replicate k [].
Proof. induction k as [|k IH]; simpl; [done|]. by rewrite IH. Qed.

Lemma Forall_length_chunks (k w : nat) l :
  length l = k * w → Forall (λ r, length r = w) (chunks k w l).
Proof.
  revert l. induction k as [|k IH]; intros l Hl; simpl; [constructor|].
  constructor.
  - rewrite length_take. lia.
  - apply IH. rewrite length_drop. lia.
Qed.

Lemma split_Ok l (sections : Z) (ps : list (list A)) :
  Np.split l sections = Ok ps →
  ∃ b w : nat, 0 < b ∧ sections = Z.of_nat b ∧ length l = b * w ∧
               ps = chunks b w l.
Proof.
  unfold Np.split, len.
  destruct (Z.eqb_spec sections 0) as [|Hne]; [done|].
  destruct (Z.eqb_spec (Z.of_nat (length l) mod sections) 0) as [Hmod|]; [|done].
  destruct (Z.ltb_spec sections 0) as [|Hpos]; [done|].
  simpl. intros [= <-].
  exists (Z.to_nat sections), (length l / Z.to_nat sections).
  split; [lia|]. split; [lia|]. split; [|done].
  apply Z.mod_divide in Hmod as [q Hq]; [|done].
  assert (length l = Z.to_nat q * Z.to_nat sections) as Hl by nia.
  rewrite Hl at 2. rewrite Nat.div_mul by lia. lia.
Qed.

Lemma split_divides l (b w : nat) :
  0 < b → length l = b * w → Np.split l (Z.of_nat b) = Ok (chunks b w l).
Proof.
  intros Hb Hl. unfold Np.split, len.
  destruct (Z.eqb_spec (Z.of_nat b) 0) as [|_]; [lia|].
  destruct (Z.eqb_spec (Z.of_nat (length l) mod Z.of_nat b) 0) as [_|Hmod].
  - destruct (Z.ltb_spec (Z.of_nat b) 0) as [|_]; [lia|]. simpl.
    rewrite Nat2Z.id, Hl, Nat.mul_comm, Nat.div_mul by lia. done.
  - destruct Hmod. rewrite Hl, Nat2Z.inj_mul, Z.mul_comm. apply Z_mod_mult.
Qed.

End pieces.

Lemma stack_Ok (ps : list (list Z)) (X : ndarray2) :
  stack ps = Ok X → rows X = ps.
Proof.
  unfold stack. destruct ps as [|r ps]; [done|].
  destruct (forallb _ _); [|done]. by intros [= <-].
Qed.

Lemma stack_replicate (b : nat) (r : list Z) :
  0 < b → stack (replicate b r) = Ok (Array2 (b, length r) (replicate b r)).
Proof.
  intros Hb. destruct b as [|b]; [lia|]. unfold stack. cbn [replicate].
  assert (forallb (λ r', length r' =? length r) (r :: replicate b r) = true) as ->.
  { apply forallb_forall. intros r' Hr'%list_elem_of_In.
    change (r' ∈ replicate (S b) r) in Hr'.
    apply elem_of_replicate in Hr' as [-> _]. apply Nat.eqb_refl. }
  simpl. by rewrite length_replicate.
Qed.

(** ** [split_data] *)

Section split_data.
Implicit Types chars : list Z.

Lemma at2_slice_cols_to (X : ndarray2) (cut : Z) (i j : nat) :
  (0 ≤ cut)%Z →
  at2 (slice_cols None (Some cut) X) i j =
  if decide (j < Z.to_nat cut) then at2 X i j else None.
Proof.
  intros Hcut. unfold at2, slice_cols; simpl.
  rewrite list_lookup_fmap. destruct (rows X !! i) as [r|]; simpl.
  - by rewrite slice_to, lookup_take by done.
  - by case_decide.
Qed.

Lemma at2_slice_cols_from (X : ndarray2) (cut : Z) (i j : nat) :
  (0 ≤ cut)%Z →
  at2 (slice_cols (Some cut) None X) i j = at2 X i (Z.to_nat cut + j).
Proof.
  intros Hcut. unfold at2, slice_cols; simpl.
  rewrite list_lookup_fmap. destruct (rows X !! i) as [r|]; simpl; [|done].
  by rewrite slice_from, lookup_drop by done.
Qed.

Lemma shifted_slice_cols_to (X Y : ndarray2) (cut : Z) :
  (0 ≤ cut)%Z → shifted X Y →
  shifted (slice_cols None (Some cut) X) (slice_cols None (Some cut) Y).
Proof.
  intros Hcut HXY i j v. rewrite !at2_slice_cols_to by done.
  repeat case_decide; try done; try lia. apply HXY.
Qed.

Lemma shifted_slice_cols_from (X Y : ndarray2) (cut : Z) :
  (0 ≤ cut)%Z → shifted X Y →
  shifted (slice_cols (Some cut) None X) (slice_cols (Some cut) None Y).
Proof.
  intros Hcut HXY i j v. rewrite !at2_slice_cols_from by done.
  rewrite Nat.add_succ_r. apply HXY.
Qed.

(** The rows that [np.stack(np.split(., batch_size))] makes of the input
    stream and of the target stream are shifted by one position. *)
Lemma shifted_chunks chars (m b wx wy : nat) (X Y : ndarray2) :
  m ≤ length chars →
  m = b * wx →
  length (take m (drop 1 chars)) = b * wy →
  rows X = chunks b wx (take m chars) →
  rows Y = chunks b wy (take m (drop 1 chars)) →
  shifted X Y.
Proof.
  intros Hm Hx Hy HX HY i j v. unfold at2. rewrite HX, HY.
  destruct (decide (i < b)) as [Hi|Hi]; last first.
  { rewrite (lookup_ge_None_2 (chunks b wx _)); [done|]. rewrite length_chunks. lia. }
  rewrite !chunks_lookup by done. simpl.
  rewrite length_take, length_drop in Hy.
  intros [Hv Hj]%lookup_take_Some.
  rewrite lookup_drop in Hv. apply lookup_take_Some in Hv as [Hv Hlt].
  assert (i * wy = i * wx ∧ j < wy) as [Hiw Hjw] by nia.
  apply lookup_take_Some. split; [|done].
  rewrite lookup_drop. apply lookup_take_Some. split; [|nia].
  rewrite lookup_drop, Hiw. rewrite <- Hv. f_equal. lia.
Qed.

Lemma quot_mul_bounds (a b : Z) :
  (0 ≤ a)%Z → b ≠ 0%Z → (0 ≤ Z.quot a b * b ≤ a)%Z.
Proof. intros Ha Hb. rewrite Z.mul_comm. by apply Z.mul_quot_le. Qed.

Lemma int_mul_sign (n : Z) (f : Q) :
  (0 <= f)%Q →
  ((0 ≤ n → 0 ≤ int_mul n f) ∧ (n ≤ 0 → int_mul n f ≤ 0))%Z.
Proof.
  intros Hf. unfold int_mul.
  assert (0 ≤ Qnum f)%Z as Hnum.
  { unfold Qle in Hf; simpl in Hf. lia. }
  split; intros Hn.
  - apply Z.quot_pos; lia.
  - replace (n * Qnum f)%Z with (- ((- n) * Qnum f))%Z by lia.
    rewrite Z.quot_opp_l by lia.
    assert (0 ≤ Z.quot (- n * Qnum f) (Z.pos (Qden f)))%Z; [|lia].
    apply Z.quot_pos; lia.
Qed.

(** What a successful call has computed. *)
Lemma split_data_Ok chars (batch_size num_steps : Z) (split_frac : Q)
    (train_x train_y val_x val_y : ndarray2) :
  split_data chars batch_size num_steps split_frac
    = Ok (train_x, train_y, val_x, val_y) →
  ∃ (X Y : ndarray2) (b wx wy : nat),
    let n_batches := Z.quot (len chars) (batch_size * num_steps) in
    let m := Z.to_nat (n_batches * (batch_size * num_steps)) in
    let cut := (int_mul n_batches split_frac * num_steps)%Z in
    0 < b ∧ batch_size = Z.of_nat b ∧ num_steps ≠ 0%Z ∧
    m ≤ length chars ∧ m = b * wx ∧
    length (take m (drop 1 chars)) = b * wy ∧
    rows X = chunks b wx (take m chars) ∧
    rows Y = chunks b wy (take m (drop 1 chars)) ∧
    train_x = slice_cols None (Some cut) X ∧
    train_y = slice_cols None (Some cut) Y ∧
    val_x = slice_cols (Some cut) None X ∧
    val_y = slice_cols (Some cut) None Y.
Proof.
  unfold split_data, int_div.
  destruct (Z.eqb_spec (batch_size * num_steps) 0) as [|Hs]; [done|].
  cbn [mbind result_bind].
  set (n_batches := Z.quot (len chars) (batch_size * num_steps)).
  pose proof (quot_mul_bounds (len chars) (batch_size * num_steps)
                ltac:(unfold len; lia) Hs) as Hm.
  fold n_batches in Hm.
  rewrite slice_to by lia. rewrite slice_between by lia.
  replace (Z.to_nat (n_batches * (batch_size * num_steps) + 1) - Z.to_nat 1)
    with (Z.to_nat (n_batches * (batch_size * num_steps))) by lia.
  change (Z.to_nat 1) with 1.
  set (m := Z.to_nat (n_batches * (batch_size * num_steps))).
  destruct (Np.split (take m chars) batch_size) as [xs|] eqn:Hxs; [|done].
  cbn [mbind result_bind].
  destruct (stack xs) as [X|] eqn:HX; [|done]. cbn [mbind result_bind].
  destruct (Np.split (take m (drop 1 chars)) batch_size) as [ys|] eqn:Hys; [|done].
  cbn [mbind result_bind].
  destruct (stack ys) as [Y|] eqn:HY; [|done]. cbn [mbind result_bind].
  intros [= <- <- <- <-].
  apply split_Ok in Hxs as (b & wx & Hb & -> & Hlx & ->).
  apply split_Ok in Hys as (b' & wy & _ & Hbb' & Hly & ->).
  apply Nat2Z.inj in Hbb' as <-.
  apply stack_Ok in HX, HY.
  exists X, Y, b, wx, wy. cbn zeta.
  assert (m ≤ length chars) as Hle by (unfold len in Hm; lia).
  rewrite length_take, Nat.min_l in Hlx by done.
  split_and!; try done. lia.
Qed.

Lemma split_data_cut_nonneg chars (b : nat) (num_steps : Z) (split_frac : Q) :
  (0 <= split_frac)%Q → 0 < b → num_steps ≠ 0%Z →
  (0 ≤ int_mul (Z.quot (len chars) (Z.of_nat b * num_steps)) split_frac
       * num_steps)%Z.
Proof.
  intros Hf Hb Hns.
  set (n := Z.quot (len chars) (Z.of_nat b * num_steps)).
  destruct (int_mul_sign n split_frac Hf) as [Hpos Hneg].
  destruct (Z.lt_total num_steps 0) as [Hlt|[?|Hgt]]; [|done|].
  - assert (n ≤ 0)%Z as Hn.
    { unfold n. replace (Z.of_nat b * num_steps)%Z
        with (- (Z.of_nat b * - num_steps))%Z by lia.
      rewrite Z.quot_opp_r by lia.
      assert (0 ≤ Z.quot (len chars) (Z.of_nat b * - num_steps))%Z; [|lia].
      apply Z.quot_pos; unfold len; lia. }
    specialize (Hneg Hn). nia.
  - assert (0 ≤ n)%Z as Hn by (apply Z.quot_pos; unfold len; lia).
    specialize (Hpos Hn). nia.
Qed.

Lemma stack_chunks (b w : nat) (l : list Z) :
  0 < b → length l = b * w →
  stack (chunks b w l) = Ok (Array2 (b, w) (chunks b w l)).
Proof.
  intros Hb Hl. pose proof (Forall_length_chunks b w l Hl) as Hall.
  pose proof (length_chunks b w l) as Hlen.
  unfold stack. destruct (chunks b w l) as [|r ps] eqn:Hps; [simpl in Hlen; lia|].
  assert (length r = w) as Hr by (by inversion Hall).
  assert (forallb (λ r', length r' =? length r) (r :: ps) = true) as ->.
  { apply forallb_forall. intros r' Hr'%list_elem_of_In.
    rewrite Forall_forall in Hall. rewrite (Hall _ Hr'), Hr. apply Nat.eqb_refl. }
  by rewrite Hlen, Hr.
Qed.

Lemma split_data_short_nat chars (b : nat) (num_steps : Z) (split_frac : Q) :
  0 < b → (1 ≤ num_steps)%Z → (len chars < Z.of_nat b * num_steps)%Z →
  let e := empty_cols b in
  split_data chars (Z.of_nat b) num_steps split_frac = Ok (e, e, e, e).
Proof.
  intros Hb Hns Hshort e. unfold split_data, int_div.
  destruct (Z.eqb_spec (Z.of_nat b * num_steps) 0) as [|_]; [nia|].
  cbn [mbind result_bind].
  rewrite Z.quot_small by (unfold len in *; lia).
  rewrite Z.mul_0_l, Z.add_0_l.
  rewrite slice_to, slice_between by lia.
  change (Z.to_nat 0) with 0. rewrite Nat.sub_diag, !take_0.
  rewrite (split_divides [] b 0) by (simpl; lia).
  cbn [mbind result_bind]. rewrite chunks_nil, stack_replicate by lia.
  cbn [mbind result_bind].
  unfold slice_cols; simpl. by rewrite !fmap_replicate.
Qed.

End split_data.

(** C4. Shift invariant: in the training pair and in the validation pair
    that [split_data] returns, the target at column [j] of a row is the
    input at column [j + 1] of the same row, wherever column [j + 1] lies in
    that row. *)
Theorem split_data_shift_invariant (chars : list Z) (batch_size num_steps : Z)
    (split_frac : Q) (train_x train_y val_x val_y : ndarray2) :
  (0 <= split_frac)%Q →
  split_data chars batch_size num_steps split_frac
    = Ok (train_x, train_y, val_x, val_y) →
  (∀ i j v, at2 train_x i (j + 1) = Some v → at2 train_y i j = Some v) ∧
  (∀ i j v, at2 val_x i (j + 1) = Some v → at2 val_y i j = Some v).
Proof.
  intros Hf Hok.
  apply split_data_Ok in Hok
    as (X & Y & b & wx & wy & Hb & -> & Hns & Hm & Hx & Hy & HX & HY
        & -> & -> & -> & ->).
  pose proof (shifted_chunks chars _ b wx wy X Y Hm Hx Hy HX HY) as HXY.
  pose proof (split_data_cut_nonneg chars b num_steps split_frac Hf Hb Hns) as Hcut.
  split; intros i j v; rewrite Nat.add_1_r.
  - by apply shifted_slice_cols_to.
  - by apply shifted_slice_cols_from.
Qed.

Lemma split_data_shift_invariant_witness :
  let chars := [0; 1; 2; 0; 1; 2; 0; 1; 2; 0; 1; 2; 9]%Z in
  ∃ train_x train_y val_x val_y,
    split_data chars 2 3 (1 # 2) = Ok (train_x, train_y, val_x, val_y) ∧
    (∀ i j v, at2 train_x i (j + 1) = Some v → at2 train_y i j = Some v) ∧
    (∀ i j v, at2 val_x i (j + 1) = Some v → at2 val_y i j = Some v).
Proof.
  intros chars. eexists _, _, _, _. split; [vm_compute; reflexivity|].
  apply (split_data_shift_invariant chars 2 3 (1 # 2)).
  - unfold Qle; simpl; lia.
  - vm_compute; reflexivity.
Defined.

(** C6. A corpus shorter than one [batch_size * num_steps] window raises
    nothing: all four tensors come back with [batch_size] rows and zero
    columns. *)
Theorem split_data_short_corpus (chars : list Z) (batch_size num_steps : Z)
    (split_frac : Q) :
  (1 ≤ batch_size)%Z → (1 ≤ num_steps)%Z →
  (len chars < batch_size * num_steps)%Z →
  let e := empty_cols (Z.to_nat batch_size) in
  split_data chars batch_size num_steps split_frac = Ok (e, e, e, e).
Proof.
  intros Hbs Hns Hshort.
  pose proof (split_data_short_nat chars (Z.to_nat batch_size) num_steps split_frac)
    as Haux.
  rewrite Z2Nat.id in Haux by lia. apply Haux; lia.
Qed.

Lemma split_data_short_corpus_witness :
  let e := empty_cols 2 in
  split_data [0; 1; 2; 0; 1]%Z 2 3 (9 # 10) = Ok (e, e, e, e).
Proof.
  apply (split_data_short_corpus [0; 1; 2; 0; 1]%Z 2 3 (9 # 10)).
  - lia.
  - lia.
  - vm_compute; reflexivity.
Defined.

(** C2. When the length of the corpus is a positive multiple of
    [batch_size * num_steps] and there are at least two rows, the call does
    not return tensors: the target stream is one element short and
    [np.split] raises [ValueError]. *)
Theorem split_data_exact_multiple_raises (chars : list Z)
    (batch_size num_steps : Z) (split_frac : Q) :
  (2 ≤ batch_size)%Z → (1 ≤ num_steps)%Z → (0 < len chars)%Z →
  (len chars mod (batch_size * num_steps) = 0)%Z →
  split_data chars batch_size num_steps split_frac = Raise ValueError.
Proof.
  intros Hbs Hns Hlen Hmod. unfold split_data, int_div.
  destruct (Z.eqb_spec (batch_size * num_steps) 0) as [|Hs]; [nia|].
  cbn [mbind result_bind].
  apply Z.mod_divide in Hmod as [q Hq]; [|done].
  assert (Z.quot (len chars) (batch_size * num_steps) = q) as ->.
  { rewrite Hq. apply Z.quot_mul. done. }
  rewrite <- Hq.
  rewrite slice_to by lia. rewrite slice_between by lia.
  unfold len in *. rewrite Nat2Z.id.
  replace (Z.to_nat (Z.of_nat (length chars) + 1) - Z.to_nat 1)
    with (length chars) by lia.
  change (Z.to_nat 1) with 1. rewrite firstn_all.
  assert (0 < q)%Z as Hqpos by nia.
  rewrite <- (Z2Nat.id batch_size) at 1 by lia.
  rewrite (split_divides chars (Z.to_nat batch_size) (Z.to_nat (q * num_steps)))
    by nia.
  cbn [mbind result_bind]. rewrite stack_chunks by nia.
  cbn [mbind result_bind].
  unfold Np.split at 1.
  destruct (Z.eqb_spec batch_size 0) as [|_]; [lia|].
  destruct (Z.eqb_spec (len (take (length chars) (drop 1 chars)) mod batch_size) 0)
    as [Hy|_]; [|done].
  exfalso. unfold len in Hy.
  rewrite length_take, length_drop, Nat.min_r in Hy by lia.
  apply Z.mod_divide in Hy as [q' Hq']; [|lia].
  assert (batch_size * (q * num_steps - q') = 1)%Z as Hone by lia.
  apply Z.eq_mul_1 in Hone. lia.
Qed.

(** The corpus "abcabcabcabc" with [batch_size = 2] and [num_steps = 3]:
    twelve codes, twice the window of six. *)
Lemma split_data_abc_raises :
  encode abc_vocab "abcabcabcabc" = Ok [0; 1; 2; 0; 1; 2; 0; 1; 2; 0; 1; 2]%Z ∧
  split_data [0; 1; 2; 0; 1; 2; 0; 1; 2; 0; 1; 2]%Z 2 3 (1 # 2) = Raise ValueError.
Proof.
  split; [vm_compute; reflexivity|].
  apply (split_data_exact_multiple_raises
           [0; 1; 2; 0; 1; 2; 0; 1; 2; 0; 1; 2]%Z 2 3 (1 # 2)).
  - lia.
  - lia.
  - reflexivity.
  - reflexivity.
Defined.

(** ** [get_batch] *)

Section get_batch.

Variables (B C s : nat).
Hypothesis Hs : 0 < s.

Let S : Z := Z.of_nat s.
Let n : nat := C / s.

Let window := Batcher.window S.

Lemma windows_fit (b : nat) : b < n → b * s + s ≤ C.
Proof.
  intros Hb. subst n. pose proof (Nat.Div0.mul_div_le C s) as HC.
  assert (b + 1 ≤ C / s) as Hb1 by lia. nia.
Qed.

Lemma window_rows (a : ndarray2) (b : nat) :
  rows (window a (Z.of_nat b)) = (λ r, take s (drop (b * s) r)) <$> rows a.
Proof.
  unfold window, slice_cols; simpl. apply list_fmap_ext. intros _ r _.
  subst S. rewrite slice_between by lia. f_equal; [lia|f_equal; lia].
Qed.

Lemma window_is_window_of (a : ndarray2) (b : nat) :
  wf a → shape a = (B, C) → b < n →
  window_of B s a b (window a (Z.of_nat b)).
Proof.
  intros [Hrows Hcols] Hshape Hb. pose proof (windows_fit b Hb) as Hfit.
  rewrite Hshape in Hrows, Hcols; simpl in Hrows, Hcols.
  split_and!.
  - split.
    + rewrite window_rows, length_fmap. unfold window; simpl. by rewrite Hshape.
    + rewrite window_rows. apply Forall_fmap.
      eapply Forall_impl; [exact Hcols|]. intros r Hr; simpl in *.
      unfold window; simpl. rewrite Hshape; simpl. subst S.
      rewrite !clip_index_nonneg by lia.
      rewrite length_take, length_drop. lia.
  - unfold window; simpl. rewrite Hshape; simpl. subst S.
    rewrite !clip_index_nonneg by lia. f_equal. lia.
  - intros i j Hj. unfold at2. rewrite window_rows, list_lookup_fmap.
    destruct (rows a !! i) as [r|]; simpl; [|done].
    by rewrite lookup_take_lt, lookup_drop by done.
Qed.

Lemma concat_windows {A : Type} (r : list A) (k : nat) :
  concat ((λ b, take s (drop (b * s) r)) <$> seq 0 k) = take (k * s) r.
Proof.
  induction k as [|k IH]; [done|].
  rewrite seq_S, fmap_app, concat_app, IH; simpl.
  rewrite app_nil_r, take_take_drop. f_equal. lia.
Qed.

Lemma hconcat_windows (a : ndarray2) :
  wf a → shape a = (B, C) →
  hconcat B (window a <$> range (Z.of_nat n))
  = slice_cols None (Some (Z.of_nat n * S)%Z) a.
Proof.
  intros Hwf Hshape. pose proof Hwf as [Hrows Hcols].
  rewrite Hshape in Hrows, Hcols; simpl in Hrows, Hcols.
  unfold range. rewrite Nat2Z.id.
  unfold hconcat, slice_cols. rewrite Hshape; simpl. f_equal.
  - f_equal. rewrite <- !list_fmap_compose.
    rewrite (list_fmap_ext _ (λ _, s) (seq 0 n)).
    + rewrite sum_list_fmap_const, length_seq. subst S.
      rewrite clip_index_nonneg by lia.
      pose proof (Nat.div_mod_eq C s). subst n. nia.
    + intros i b [-> Hi]%lookup_seq. unfold compose. rewrite Nat.add_0_l.
      by destruct (window_is_window_of a i Hwf Hshape Hi) as (_ & -> & _).
  - apply list_eq. intros i. rewrite !list_lookup_fmap.
    destruct (decide (i < B)) as [Hi|Hi].
    + rewrite lookup_seq_lt by done. simpl.
      destruct (lookup_lt_is_Some_2 (rows a) i) as [r Hr]; [lia|].
      rewrite Hr; simpl. f_equal.
      rewrite <- !list_fmap_compose.
      rewrite (list_fmap_ext _ (λ b, take s (drop (b * s) r)) (seq 0 n)).
      * rewrite concat_windows. subst S. rewrite slice_to by lia.
        f_equal. lia.
      * intros _ b _. unfold compose.
        by rewrite window_rows, list_lookup_fmap, Hr.
    + rewrite lookup_seq_ge by lia.
      by rewrite (lookup_ge_None_2 (rows a)) by lia.
Qed.

Lemma get_batch_pair (X Y : ndarray2) :
  shape X = (B, C) →
  get_batch [X; Y] S
  = Ok ((λ b, [window X b; window Y b]) <$> range (Z.of_nat n)).
Proof.
  intros HX. unfold get_batch, int_div. rewrite HX.
  destruct (Z.eqb_spec S 0) as [|_]; [subst S; lia|].
  cbn [mbind result_bind]. subst S n.
  rewrite Z.quot_div_nonneg, <- Nat2Z.inj_div by lia. done.
Qed.

End get_batch.

Lemma get_batch_partition_nat (X Y : ndarray2) (B C s : nat) :
  wf X → wf Y → shape X = (B, C) → shape Y = (B, C) → 0 < s →
  let n := C / s in
  ∃ ws : list (list ndarray2),
    get_batch [X; Y] (Z.of_nat s) = Ok ws ∧
    length ws = n ∧
    (∀ b, b < n → ∃ xw yw, ws !! b = Some [xw; yw] ∧
                            window_of B s X b xw ∧ window_of B s Y b yw) ∧
    hconcat B (component B 0 ws) = slice_cols None (Some (Z.of_nat (n * s))) X ∧
    hconcat B (component B 1 ws) = slice_cols None (Some (Z.of_nat (n * s))) Y.
Proof.
  intros HwX HwY HX HY Hs n.
  eexists. split; [by apply (get_batch_pair B C s)|].
  split; [|split; [|split]].
  - unfold range. by rewrite length_fmap, length_fmap, length_seq, Nat2Z.id.
  - intros b Hb. exists (window (Z.of_nat s) X (Z.of_nat b)),
                        (window (Z.of_nat s) Y (Z.of_nat b)).
    split.
    + unfold range. rewrite Nat2Z.id, <- list_fmap_compose, list_lookup_fmap.
      fold n. by rewrite lookup_seq_lt.
    + split; by apply (window_is_window_of B C s).
  - unfold component. rewrite <- list_fmap_compose.
    rewrite Nat2Z.inj_mul. by rewrite <- (hconcat_windows B C s).
  - unfold component. rewrite <- list_fmap_compose.
    rewrite Nat2Z.inj_mul. by rewrite <- (hconcat_windows B C s).
Qed.

(** C5. For two arrays of the same shape with [C] columns and a step
    [S >= 1], [get_batch] yields exactly [C / S] pairs of windows; the
    window with number [b] has the rows of the input and the [S] columns
    from column [b * S] on, so the windows do not overlap and come from
    left to right; joined along the column axis, the windows give back the
    first [(C / S) * S] columns of each input. *)
Theorem get_batch_partition (X Y : ndarray2) (B C : nat) (num_steps : Z) :
  wf X → wf Y → shape X = (B, C) → shape Y = (B, C) → (1 ≤ num_steps)%Z →
  let s := Z.to_nat num_steps in
  let n := C / s in
  ∃ ws : list (list ndarray2),
    get_batch [X; Y] num_steps = Ok ws ∧
    length ws = n ∧
    (∀ b, b < n → ∃ xw yw, ws !! b = Some [xw; yw] ∧
                            window_of B s X b xw ∧ window_of B s Y b yw) ∧
    hconcat B (component B 0 ws) = slice_cols None (Some (Z.of_nat (n * s))) X ∧
    hconcat B (component B 1 ws) = slice_cols None (Some (Z.of_nat (n * s))) Y.
Proof.
  intros HwX HwY HX HY HS. cbn zeta.
  pose proof (get_batch_partition_nat X Y B C (Z.to_nat num_steps)
                HwX HwY HX HY ltac:(lia)) as Hnat.
  cbn zeta in Hnat. by rewrite Z2Nat.id in Hnat by lia.
Qed.

Lemma get_batch_partition_witness :
  let X := Array2 (2, 7) [[1; 2; 3; 4; 5; 6; 7]; [11; 12; 13; 14; 15; 16; 17]]%Z in
  let Y := Array2 (2, 7) [[2; 3; 4; 5; 6; 7; 8]; [12; 13; 14; 15; 16; 17; 18]]%Z in
  ∃ ws : list (list ndarray2),
    get_batch [X; Y] 3 = Ok ws ∧
    length ws = 2 ∧
    (∀ b, b < 2 → ∃ xw yw, ws !! b = Some [xw; yw] ∧
                            window_of 2 3 X b xw ∧ window_of 2 3 Y b yw) ∧
    hconcat 2 (component 2 0 ws) = slice_cols None (Some 6%Z) X ∧
    hconcat 2 (component 2 1 ws) = slice_cols None (Some 6%Z) Y.
Proof.
  intros X Y. apply (get_batch_partition X Y 2 7 3).
  - split; [reflexivity|]. by repeat constructor.
  - split; [reflexivity|]. by repeat constructor.
  - reflexivity.
  - reflexivity.
  - lia.
Defined.

(** ** [np.argsort] and the zeroing of [pick_top_n] *)

Section argsort.
Implicit Types p : list Q.

Lemma elem_of_take_weaken {A : Type} (l : list A) (k : nat) (x : A) :
  x ∈ take k l → x ∈ l.
Proof. intros Hx. rewrite <- (take_drop k l). apply elem_of_app. by left. Qed.

Lemma elem_of_drop_weaken {A : Type} (l : list A) (k : nat) (x : A) :
  x ∈ drop k l → x ∈ l.
Proof. intros Hx. rewrite <- (take_drop k l). apply elem_of_app. by right. Qed.

Lemma insert_sorted_Permutation (x : Q * nat) (l : list (Q * nat)) :
  insert_sorted x l ≡ₚ x :: l.
Proof.
  induction l as [|y l IH]; simpl; [done|].
  destruct (Qle_bool x.1 y.1); [done|].
  rewrite IH. apply Permutation_swap.
Qed.

Lemma insert_sorted_StronglySorted (x : Q * nat) (l : list (Q * nat)) :
  StronglySorted by_value l → StronglySorted by_value (insert_sorted x l).
Proof.
  induction 1 as [|y l Hl IH Hy]; simpl.
  - repeat constructor.
  - destruct (Qle_bool x.1 y.1) eqn:Hxy.
    + apply Qle_bool_iff in Hxy.
      constructor; [by constructor|].
      constructor; [done|].
      eapply Forall_impl; [exact Hy|]. intros z Hz. unfold by_value in *. lra.
    + assert (y.1 <= x.1)%Q as Hyx.
      { destruct (Qlt_le_dec x.1 y.1) as [Hlt|]; [|done].
        apply Qlt_le_weak, Qle_bool_iff in Hlt. congruence. }
      constructor; [done|].
      rewrite insert_sorted_Permutation. by constructor.
Qed.

Lemma sort_Permutation (l : list (Q * nat)) : foldr insert_sorted [] l ≡ₚ l.
Proof.
  induction l as [|x l IH]; simpl; [done|].
  by rewrite insert_sorted_Permutation, IH.
Qed.

Lemma sort_StronglySorted (l : list (Q * nat)) :
  StronglySorted by_value (foldr insert_sorted [] l).
Proof.
  induction l as [|x l IH]; simpl; [constructor|].
  by apply insert_sorted_StronglySorted.
Qed.

Lemma elem_of_zip_seq p (j : nat) (x : Q) (i : nat) :
  (x, i) ∈ zip p (seq j (length p)) → j ≤ i ∧ p !! (i - j) = Some x.
Proof.
  revert j. induction p as [|y p IH]; intros j; simpl.
  - by intros ?%elem_of_nil.
  - intros [[= -> ->]|Hin]%elem_of_cons.
    + by rewrite Nat.sub_diag.
    + apply IH in Hin as [Hle Hlook]. split; [lia|].
      by replace (i - j) with (S (i - S j)) by lia.
Qed.

Lemma argsort_Permutation p : argsort p ≡ₚ seq 0 (length p).
Proof.
  unfold argsort. rewrite sort_Permutation.
  by rewrite snd_zip by (rewrite length_seq; lia).
Qed.

Lemma length_argsort p : length (argsort p) = length p.
Proof. by rewrite argsort_Permutation, length_seq. Qed.

Lemma NoDup_argsort p : NoDup (argsort p).
Proof. rewrite argsort_Permutation. apply NoDup_seq. Qed.

Lemma elem_of_argsort p (i : nat) : i ∈ argsort p ↔ i < length p.
Proof. rewrite argsort_Permutation, elem_of_seq. lia. Qed.

(** Whatever comes earlier in [argsort p] has the smaller value. *)
Lemma argsort_ascending p (k i j : nat) (x y : Q) :
  i ∈ take k (argsort p) → j ∈ drop k (argsort p) →
  p !! i = Some x → p !! j = Some y → (x <= y)%Q.
Proof.
  unfold argsort. rewrite <- fmap_take, <- fmap_drop.
  intros [[x' i'] [-> Hi]]%list_elem_of_fmap [[y' j'] [-> Hj]]%list_elem_of_fmap.
  simpl. intros Hx Hy.
  pose proof (sort_StronglySorted (zip p (seq 0 (length p)))) as Hsorted.
  rewrite <- (take_drop k (foldr _ _ _)) in Hsorted.
  pose proof (StronglySorted_app_1_elem_of _ _ _ _ _ Hsorted Hi Hj) as Hle.
  apply elem_of_take_weaken in Hi. apply elem_of_drop_weaken in Hj.
  rewrite sort_Permutation in Hi, Hj.
  apply elem_of_zip_seq in Hi as [_ Hi]. apply elem_of_zip_seq in Hj as [_ Hj].
  rewrite Nat.sub_0_r in Hi, Hj. unfold by_value in Hle; simpl in Hle.
  congruence.
Qed.

Lemma length_zero_at (idx : list nat) p : length (zero_at idx p) = length p.
Proof.
  induction idx as [|i idx IH]; simpl; [done|]. by rewrite length_insert.
Qed.

Lemma zero_at_lookup_elem_of (idx : list nat) p (i : nat) :
  i ∈ idx → i < length p → zero_at idx p !! i = Some 0%Q.
Proof.
  induction idx as [|i' idx IH]; simpl; [by intros ?%elem_of_nil|].
  intros Hin Hi. destruct (decide (i' = i)) as [->|Hne].
  - apply list_lookup_insert_eq. by rewrite length_zero_at.
  - rewrite list_lookup_insert_ne by done.
    apply elem_of_cons in Hin as [?|?]; [congruence|]. by apply IH.
Qed.

Lemma zero_at_lookup_not_elem_of (idx : list nat) p (i : nat) :
  i ∉ idx → zero_at idx p !! i = p !! i.
Proof.
  induction idx as [|i' idx IH]; simpl; [done|].
  intros [Hne Hnin]%not_elem_of_cons.
  rewrite list_lookup_insert_ne by done. by apply IH.
Qed.

(** The slice [[:-top_n]] of a list, by the sign of [top_n]. *)
Lemma slice_minus_pos {A : Type} (l : list A) (top_n : Z) :
  (1 ≤ top_n)%Z → slice None (Some (- top_n)%Z) l = take (length l - Z.to_nat top_n) l.
Proof.
  intros Ht. unfold slice, slice_lo, slice_hi, clip_index.
  destruct (Z.ltb_spec (- top_n) 0); [|lia].
  rewrite Nat.sub_0_r, drop_0. f_equal. lia.
Qed.


End argsort.

(** ** Sums, counts and the categorical draw *)

Section sums.
Implicit Types p : list Q.
Local Open Scope Q_scope.

Lemma sum_nonneg p : Forall (λ x, 0 <= x) p → 0 <= Sampler.sum p.
Proof.
  induction 1 as [|x p Hx _ IH]; simpl; [lra|]. lra.
Qed.

Lemma sum_lookup_le p (i : nat) (x : Q) :
  Forall (λ x, 0 <= x) p → p !! i = Some x → x <= Sampler.sum p.
Proof.
  intros Hp. revert i. induction Hp as [|y p Hy Hp IH]; intros i; [done|].
  pose proof (sum_nonneg p Hp) as Hs.
  destruct i as [|i]; simpl.
  - intros [= ->]. lra.
  - intros Hi%IH. lra.
Qed.

Lemma sum_pos_lookup p :
  0 < Sampler.sum p → ∃ (i : nat) (x : Q), p !! i = Some x ∧ 0 < x.
Proof.
  induction p as [|y p IH]; simpl; [lra|]. intros Hs.
  destruct (Qlt_le_dec 0 y) as [Hy|Hy].
  - by exists 0%nat, y.
  - destruct IH as (i & x & Hi & Hx); [lra|]. by exists (S i), x.
Qed.

Lemma sum_fmap_div p (s : Q) :
  Sampler.sum ((λ x, x / s) <$> p) == Sampler.sum p / s.
Proof.
  induction p as [|y p IH]; csimpl.
  - unfold Qdiv. ring.
  - rewrite IH. unfold Qdiv. ring.
Qed.

Lemma existsb_negative_false p :
  Forall (λ x, 0 <= x) p → existsb (λ x, negb (Qle_bool 0 x)) p = false.
Proof.
  induction 1 as [|x p Hx _ IH]; simpl; [done|].
  apply Qle_bool_iff in Hx. by rewrite Hx, IH.
Qed.

Lemma searchsorted_cumsum p (acc u : Q) :
  Forall (λ x, 0 <= x) p → acc <= u → u < acc + Sampler.sum p →
  ∃ x, p !! searchsorted_right (cumsum_from acc p) u = Some x ∧ 0 < x.
Proof.
  intros Hp. revert acc. induction Hp as [|y p Hy Hp IH]; intros acc Hlo Hhi; simpl in *.
  - lra.
  - destruct (Qle_bool (acc + y) u) eqn:Hle.
    + apply Qle_bool_iff in Hle. simpl. apply IH; lra.
    + exists y. split; [done|].
      destruct (Qlt_le_dec u (acc + y)) as [?|Hge]; [lra|].
      apply Qle_bool_iff in Hge. congruence.
Qed.

Lemma searchsorted_cumsum_lt p (u : Q) :
  Forall (λ x, 0 <= x) p → 0 <= u → u < Sampler.sum p →
  (searchsorted_right (cumsum p) u < length p)%nat.
Proof.
  intros Hp Hlo Hhi.
  destruct (searchsorted_cumsum p 0 u Hp Hlo) as (x & Hx & _); [lra|].
  by apply lookup_lt_Some in Hx.
Qed.

Lemma sum_list_append (l k : list nat) :
  sum_list (l ++ k) = (sum_list l + sum_list k)%nat.
Proof. induction l as [|x l IH]; simpl; [done|]. rewrite IH. lia. Qed.

Lemma count_nonzero_snoc p (x : Q) :
  count_nonzero (p ++ [x]) = (count_nonzero p + nonzero_at [x] 0)%nat.
Proof.
  unfold count_nonzero, nonzero_at. rewrite filter_app, length_app. f_equal.
  simpl. rewrite filter_cons, filter_nil.
  destruct (decide (x == 0)); by case_decide.
Qed.

Lemma count_nonzero_indices p :
  count_nonzero p = sum_list (nonzero_at p <$> seq 0 (length p)).
Proof.
  induction p as [|x p IH] using rev_ind; [done|].
  rewrite count_nonzero_snoc, length_app; simpl.
  rewrite Nat.add_1_r, seq_S, fmap_app, sum_list_append; simpl. f_equal.
  - rewrite IH. f_equal. apply list_fmap_ext. intros _ i Hi%list_elem_of_lookup_2.
    apply elem_of_seq in Hi. unfold nonzero_at. by rewrite lookup_app_l by lia.
  - unfold nonzero_at. rewrite list_lookup_middle by done. simpl. lia.
Qed.

Lemma sum_list_Permutation (l k : list nat) : l ≡ₚ k → sum_list l = sum_list k.
Proof. induction 1; simpl; lia. Qed.

Lemma sum_list_zero {A : Type} (f : A → nat) (l : list A) :
  (∀ x, x ∈ l → f x = 0%nat) → sum_list (f <$> l) = 0%nat.
Proof.
  induction l as [|x l IH]; intros Hf; csimpl; [done|].
  rewrite Hf, IH; [done| |left]. intros y Hy. apply Hf. by right.
Qed.

Lemma sum_list_le_length {A : Type} (f : A → nat) (l : list A) :
  (∀ x, x ∈ l → (f x ≤ 1)%nat) → (sum_list (f <$> l) ≤ length l)%nat.
Proof.
  induction l as [|x l IH]; intros Hf; csimpl; [done|].
  assert (f x ≤ 1)%nat by (apply Hf; left).
  assert (sum_list (f <$> l) ≤ length l)%nat; [|lia].
  apply IH. intros y Hy. apply Hf. by right.
Qed.

Lemma sum_list_one {A : Type} (f : A → nat) (l : list A) :
  (∀ x, x ∈ l → f x = 1%nat) → sum_list (f <$> l) = length l.
Proof.
  induction l as [|x l IH]; intros Hf; csimpl; [done|].
  rewrite Hf, IH; [done| |left]. intros y Hy. apply Hf. by right.
Qed.

Lemma nonzero_at_le_1 p (i : nat) : (nonzero_at p i ≤ 1)%nat.
Proof. unfold nonzero_at. destruct (p !! i); [case_decide|]; lia. Qed.

Lemma count_nonzero_fmap_div p (s : Q) :
  ¬ s == 0 → count_nonzero ((λ x, x / s) <$> p) = count_nonzero p.
Proof.
  intros Hs. unfold count_nonzero.
  induction p as [|x p IH]; csimpl; [done|].
  rewrite !filter_cons.
  assert (x / s == 0 ↔ x == 0) as Hiff.
  { split; intros H0.
    - assert (x == x / s * s) as -> by (field; done). rewrite H0. ring.
    - rewrite H0. unfold Qdiv. ring. }
  destruct (decide (¬ x / s == 0)), (decide (¬ x == 0)); simpl; tauto || by rewrite IH.
Qed.

End sums.

(** ** What the zeroing leaves *)

Section zeroed.
Local Open Scope Q_scope.

Variable p : list Q.
(** The number of leading positions of [argsort p] that are zeroed. *)
Variable k : nat.

Let a : list nat := argsort p.
Let z : list Q := zero_at (take k a) p.

Lemma zeroed_dropped (i : nat) : i ∈ take k a → z !! i = Some 0.
Proof.
  intros Hi. apply zero_at_lookup_elem_of; [done|].
  by apply elem_of_take_weaken, elem_of_argsort in Hi.
Qed.

Lemma zeroed_kept (i : nat) : i ∈ drop k a → z !! i = p !! i.
Proof.
  intros Hi. apply zero_at_lookup_not_elem_of. intros Hi'.
  pose proof (NoDup_argsort p) as Hnd. fold a in Hnd.
  rewrite <- (take_drop k a) in Hnd.
  apply NoDup_app in Hnd as (_ & Hdisj & _). by eapply Hdisj.
Qed.

Lemma zeroed_cases (i : nat) :
  (i < length p)%nat → i ∈ take k a ∨ i ∈ drop k a.
Proof.
  intros Hi%elem_of_argsort. fold a in Hi.
  rewrite <- (take_drop k a) in Hi. by apply elem_of_app in Hi.
Qed.

Lemma zeroed_nonneg : Forall (λ x, 0 <= x) p → Forall (λ x, 0 <= x) z.
Proof.
  intros Hp. apply Forall_lookup. intros i x Hx.
  assert (i < length p)%nat as Hi.
  { apply lookup_lt_Some in Hx. unfold z in Hx. by rewrite length_zero_at in Hx. }
  destruct (zeroed_cases i Hi) as [Hd|Hk].
  - rewrite zeroed_dropped in Hx by done. injection Hx as <-. lra.
  - rewrite zeroed_kept in Hx by done.
    by eapply (Forall_lookup_1 _ _ _ _ Hp).
Qed.

Lemma count_nonzero_zeroed :
  count_nonzero z = sum_list (nonzero_at z <$> drop k a).
Proof.
  rewrite count_nonzero_indices. unfold z at 2. rewrite length_zero_at.
  rewrite (sum_list_Permutation _ (nonzero_at z <$> a)).
  - rewrite <- (take_drop k a) at 1. rewrite fmap_app, sum_list_append.
    rewrite sum_list_zero; [done|].
    intros i Hi. unfold nonzero_at.
    rewrite (zeroed_dropped i Hi). by case_decide.
  - apply fmap_Permutation. symmetry. apply argsort_Permutation.
Qed.

Lemma count_nonzero_zeroed_le : (count_nonzero z ≤ length p - k)%nat.
Proof.
  rewrite count_nonzero_zeroed.
  etrans; [apply sum_list_le_length; intros; apply nonzero_at_le_1|].
  unfold a. by rewrite length_drop, length_argsort.
Qed.

Lemma count_nonzero_zeroed_eq :
  Forall (λ x, 0 < x) p → count_nonzero z = (length p - k)%nat.
Proof.
  intros Hp. rewrite count_nonzero_zeroed.
  rewrite sum_list_one.
  - unfold a. by rewrite length_drop, length_argsort.
  - intros i Hi. unfold nonzero_at. rewrite (zeroed_kept i Hi).
    apply elem_of_drop_weaken, elem_of_argsort, lookup_lt_is_Some_2 in Hi
      as [x Hx].
    rewrite Hx. pose proof (Forall_lookup_1 _ _ _ _ Hp Hx) as Hpos.
    simpl in Hpos. case_decide; [lra|done].
Qed.

Lemma sum_zeroed_pos :
  Forall (λ x, 0 <= x) p → 0 < Sampler.sum p → (k < length p)%nat →
  0 < Sampler.sum z.
Proof.
  intros Hp Hs Hk.
  destruct (sum_pos_lookup p Hs) as (i & x & Hi & Hx).
  assert (∃ j y, j ∈ drop k a ∧ p !! j = Some y ∧ 0 < y) as (j & y & Hj & Hy & Hpos).
  { destruct (zeroed_cases i) as [Hd|Hkept]; [by eapply lookup_lt_Some| |by eauto].
    destruct (drop k a) as [|j l] eqn:Hdrop.
    { apply (f_equal length) in Hdrop. unfold a in Hdrop.
      rewrite length_drop, length_argsort in Hdrop. simpl in Hdrop. lia. }
    assert (j ∈ drop k a) as Hj by (rewrite Hdrop; left).
    pose proof Hj as [y Hy]%elem_of_drop_weaken%elem_of_argsort%lookup_lt_is_Some_2.
    exists j, y. rewrite <- Hdrop. split; [done|]. split; [done|].
    pose proof (argsort_ascending p k i j x y Hd Hj Hi Hy). lra. }
  pose proof (sum_lookup_le z j y (zeroed_nonneg Hp)) as Hle.
  rewrite zeroed_kept in Hle by done. specialize (Hle Hy). lra.
Qed.


End zeroed.

(** ** [pick_top_n] *)

Section pick_top_n.
Local Open Scope Q_scope.
Implicit Types (σ : store) (p q : list Q).

Lemma pick_top_n_unfold σ (preds : loc) p (vocab_size top_n : Z) (u : Q) :
  σ !! preds = Some p →
  pick_top_n preds vocab_size top_n u σ
  = (<[preds := zero_all_but_top top_n p]> σ,
     random_choice vocab_size (top_n_distribution top_n p) u).
Proof.
  intros Hp. unfold pick_top_n, squeeze, top_n_distribution, buffer.
  by rewrite lookup_insert_eq, Hp.
Qed.

Lemma zero_all_but_top_pos p (top_n : Z) :
  (1 ≤ top_n)%Z →
  zero_all_but_top top_n p
  = zero_at (take (length p - Z.to_nat top_n) (argsort p)) p.
Proof.
  intros Ht. unfold zero_all_but_top.
  by rewrite slice_minus_pos, length_argsort.
Qed.




Lemma true_divide_Some p :
  0 < Sampler.sum p →
  true_divide p (Sampler.sum p) = Some ((λ x, x / Sampler.sum p) <$> p).
Proof.
  intros Hs. unfold true_divide.
  destruct (Qeq_bool (Sampler.sum p) 0) eqn:Heq; [|done].
  apply Qeq_bool_iff in Heq. lra.
Qed.


Lemma random_choice_Ok q (u : Q) :
  is_distribution q → 0 <= u → u < 1 →
  ∃ (c : nat) (x : Q),
    random_choice (len q) (Some q) u = Ok (Z.of_nat c) ∧ q !! c = Some x ∧ 0 < x.
Proof.
  intros [Hq Hs] Hlo Hhi. unfold random_choice.
  assert (0 < len q)%Z as Hlen.
  { destruct q; [simpl in Hs; lra|]. unfold len; simpl; lia. }
  destruct (Z.leb_spec (len q) 0) as [|_]; [lia|].
  rewrite Z.eqb_refl; simpl.
  rewrite existsb_negative_false by done.
  rewrite (Qeq_eq_bool _ _ Hs); simpl.
  destruct (searchsorted_cumsum q 0 u Hq Hlo) as (x & Hx & Hpos); [lra|].
  by exists (searchsorted_right (cumsum q) u), x.
Qed.

(** The distribution after zeroing and renormalising, for a valid [top_n]. *)
Lemma top_n_distribution_spec p (top_n : Z) :
  is_distribution p → (1 ≤ top_n)%Z →
  ∃ q, top_n_distribution top_n p = Some q ∧
       length q = length p ∧
       (count_nonzero q ≤ Z.to_nat (Z.min top_n (len p)))%nat ∧
       (Forall (λ x, 0 < x) p →
        count_nonzero q = Z.to_nat (Z.min top_n (len p))) ∧
       is_distribution q.
Proof.
  intros [Hp Hs] Ht. unfold top_n_distribution.
  rewrite zero_all_but_top_pos by done.
  set (k := (length p - Z.to_nat top_n)%nat).
  set (z := zero_at (take k (argsort p)) p).
  assert (0 < length p)%nat as Hlen.
  { destruct p; [simpl in Hs; lra|simpl; lia]. }
  assert (length p - k = Z.to_nat (Z.min top_n (len p)))%nat as Hkeep
    by (unfold len; lia).
  assert (0 < Sampler.sum z) as Hz.
  { apply sum_zeroed_pos; [done|lra|lia]. }
  rewrite true_divide_Some by done. eexists. split; [done|].
  split; [by rewrite length_fmap; apply length_zero_at|].
  rewrite count_nonzero_fmap_div by lra.
  split; [rewrite <- Hkeep; apply count_nonzero_zeroed_le|].
  split; [intros Hpos; rewrite <- Hkeep; by apply count_nonzero_zeroed_eq|].
  split.
  - apply Forall_fmap. eapply Forall_impl; [by apply zeroed_nonneg|].
    intros x Hx; simpl in *. apply Qle_shift_div_l; lra.
  - rewrite sum_fmap_div. field. lra.
Qed.

End pick_top_n.


Lemma ex_p_is_distribution : is_distribution ex_p.
Proof.
  split; [|reflexivity].
  repeat constructor; unfold Qle; simpl; lia.
Qed.



(** The example of the specification: the two largest entries of
    [[0.1, 0.05, 0.6, 0.05, 0.2]] are renormalised to 0.75 and 0.25. *)
Lemma top_n_distribution_example :
  option_map (map Qred) (top_n_distribution 2 ex_p)
  = Some [0; 0; 3 # 4; 0; 1 # 4]%Q.
Proof. vm_compute. reflexivity. Qed.

Lemma zero_all_but_top_keeps_top (p : list Q) (top_n : Z) :
  (1 ≤ top_n)%Z → keeps_top top_n p (zero_all_but_top top_n p).
Proof.
  intros Ht. rewrite zero_all_but_top_pos by done.
  set (k := length p - Z.to_nat top_n).
  split; [apply length_zero_at|].
  exists (drop k (argsort p)).
  pose proof (NoDup_argsort p) as Hnd.
  rewrite <- (take_drop k (argsort p)) in Hnd.
  apply NoDup_app in Hnd as (_ & _ & Hnd).
  split_and!.
  - done.
  - rewrite length_drop, length_argsort. unfold len. lia.
  - intros i Hi. by apply elem_of_drop_weaken, elem_of_argsort in Hi.
  - intros i Hi. by apply zeroed_kept.
  - intros i Hi Hnot. destruct (zeroed_cases p k i Hi); [|done].
    by apply zeroed_dropped.
  - intros i j x y Hi Hnot Hx Hy.
    destruct (zeroed_cases p k j) as [Hj|Hj]; [by eapply lookup_lt_Some| |done].
    by eapply (argsort_ascending p k j i).
Qed.

(** C9, as the code has it. The zeroing goes through the view that
    [np.squeeze] returns, so it lands in the caller's array: after a call
    with [top_n >= 1] the array holds its old values at the positions of its
    [top_n] largest entries and zero elsewhere (it is not renormalised), and
    no other array of the store has changed. The call may still raise
    afterwards; the array stays overwritten. *)
Theorem pick_top_n_overwrites_preds (σ : store) (preds : loc) (p : list Q)
    (vocab_size top_n : Z) (u : Q) :
  σ !! preds = Some p → (1 ≤ top_n)%Z →
  let σ' := (pick_top_n preds vocab_size top_n u σ).1 in
  (∃ p', σ' !! preds = Some p' ∧ keeps_top top_n p p') ∧
  (∀ l, l ≠ preds → σ' !! l = σ !! l).
Proof.
  intros Hσ Ht σ'. subst σ'. rewrite (pick_top_n_unfold σ preds p) by done.
  simpl. split.
  - exists (zero_all_but_top top_n p). rewrite lookup_insert_eq.
    split; [done|]. by apply zero_all_but_top_keeps_top.
  - intros l Hl. by rewrite lookup_insert_ne.
Qed.

Lemma pick_top_n_overwrites_preds_witness :
  let σ' := (pick_top_n 0 5 2 (1 # 2) {[ 0 := ex_p ]}).1 in
  (∃ p', σ' !! 0 = Some p' ∧ keeps_top 2 ex_p p') ∧
  (∀ l, l ≠ 0 → σ' !! l = ({[ 0 := ex_p ]} : store) !! l).
Proof.
  apply (pick_top_n_overwrites_preds {[ 0 := ex_p ]} 0 ex_p 5 2 (1 # 2)).
  - reflexivity.
  - lia.
Defined.

(** C9, as it is stated, fails for [top_n = 0]: the slice [[:-0]] is
    empty, nothing is zeroed, and the caller's array keeps every entry,
    although no entry is among its zero largest. *)
Lemma pick_top_n_zero_keeps_all :
  ¬ ∃ p', (pick_top_n 0 5 0 0%Q {[ 0 := ex_p ]}).1 !! 0 = Some p' ∧
          keeps_top 0 ex_p p'.
Proof.
  intros (p' & Hp' & _ & K & _ & HK & _ & _ & Hzero & _).
  vm_compute in Hp'. injection Hp' as <-.
  apply nil_length_inv in HK as ->.
  specialize (Hzero 0 ltac:(simpl; lia) ltac:(apply not_elem_of_nil)).
  discriminate Hzero.
Qed.




(** ** [sample] *)

Section sample.

Variable g : globals.
Variable net : network.
Variable draws : nat → Q.

Implicit Types (cs samples : list ascii) (σ : store) (st : net_state net).

Lemma prime_network_Ok cs (preds pr : option loc) st st' σ σ' :
  prime_network g net cs preds st σ = Ok (pr, st', σ') →
  (cs = [] ∧ pr = preds) ∨ (cs ≠ [] ∧ ∃ l, pr = Some l).
Proof.
  revert preds st σ. induction cs as [|c cs IH]; intros preds st σ; simpl.
  - intros [= -> _ _]. by left.
  - destruct (vocab_to_int g !! c) as [x|]; [|done].
    destruct (sess_run net x st σ) as [[l st1] σ1].
    intros [[-> ->]|[_ Hl]]%IH; right; split; eauto.
Qed.

Lemma prime_network_Raise cs (preds : option loc) st σ (e : exn) :
  prime_network g net cs preds st σ = Raise e →
  ∃ c, c ∈ cs ∧ vocab_to_int g !! c = None ∧ e = KeyError (inl c).
Proof.
  revert preds st σ. induction cs as [|c cs IH]; intros preds st σ; simpl; [done|].
  destruct (vocab_to_int g !! c) as [x|] eqn:Hc.
  - destruct (sess_run net x st σ) as [[l st1] σ1].
    intros (c' & Hin & Hnone & ->)%IH. exists c'. split; [by right|done].
  - intros [= <-]. exists c. split; [by left|done].
Qed.

Lemma prime_network_known cs (preds : option loc) st σ :
  (∀ c, c ∈ cs → is_Some (vocab_to_int g !! c)) →
  is_ok (prime_network g net cs preds st σ) = true.
Proof.
  revert preds st σ. induction cs as [|c cs IH]; intros preds st σ Hall; simpl; [done|].
  destruct (Hall c) as [x ->]; [by left|].
  destruct (sess_run net x st σ) as [[l st1] σ1].
  apply IH. intros c' Hc'. apply Hall. by right.
Qed.

Lemma random_choice_Raise (a : Z) (p : option (list Q)) (u : Q) (e : exn) :
  random_choice a p u = Raise e → e = ValueError.
Proof.
  unfold random_choice. destruct (a <=? 0)%Z; [by intros [= <-]|].
  destruct p as [p|]; [|by intros [= <-]].
  repeat (match goal with |- context [if ?b then _ else _] => destruct b end;
          [by intros [= <-]|]).
  done.
Qed.

Lemma pick_top_n_Raise (preds : loc) (vocab_size top_n : Z) (u : Q) σ (e : exn) :
  (pick_top_n preds vocab_size top_n u σ).2 = Raise e → e = ValueError.
Proof. unfold pick_top_n; simpl. apply random_choice_Raise. Qed.

Lemma append_char_Ok samples (c : Z) (samples' : list ascii) :
  append_char g samples c = Ok samples' → ∃ ch, samples' = samples ++ [ch].
Proof.
  unfold append_char. destruct (int_to_vocab g !! c) as [ch|]; [|done].
  intros [= <-]. by exists ch.
Qed.

Lemma append_char_Raise samples (c : Z) (e : exn) :
  append_char g samples c = Raise e → e = KeyError (inr c).
Proof.
  unfold append_char. destruct (int_to_vocab g !! c) as [ch|]; [done|].
  by intros [= <-].
Qed.

Lemma generate_Ok (n k : nat) (c : Z) st σ samples (out : list ascii) :
  generate g net draws n k c st σ samples = Ok out →
  ∃ new, out = samples ++ new ∧ length new = n.
Proof.
  revert k c st σ samples.
  induction n as [|n IH]; intros k c st σ samples; simpl.
  - intros [= <-]. exists []. by rewrite app_nil_r.
  - destruct (sess_run net c st σ) as [[preds st1] σ1].
    destruct (random_choice _ _ _) as [c'|e]; [|done].
    cbn [mbind result_bind].
    destruct (append_char g samples c') as [samples'|] eqn:Happ; [|done].
    cbn [mbind result_bind].
    apply append_char_Ok in Happ as [ch ->].
    intros (new & -> & Hlen)%IH. exists (ch :: new).
    split; [by rewrite <- app_assoc|]. simpl. by rewrite Hlen.
Qed.

Lemma generate_Raise (n k : nat) (c : Z) st σ samples (e : exn) :
  generate g net draws n k c st σ samples = Raise e → is_unbound e = false.
Proof.
  revert k c st σ samples.
  induction n as [|n IH]; intros k c st σ samples; simpl; [done|].
  destruct (sess_run net c st σ) as [[preds st1] σ1].
  destruct (random_choice _ _ _) as [c'|e'] eqn:Hpick; cbn [mbind result_bind].
  - destruct (append_char g samples c') as [samples'|e'] eqn:Happ;
      cbn [mbind result_bind]; [by apply IH|].
    apply append_char_Raise in Happ as ->. by intros [= <-].
  - apply random_choice_Raise in Hpick as ->. by intros [= <-].
Qed.

Lemma length_string_of_list_ascii (l : list ascii) :
  String.length (string_of_list_ascii l) = length l.
Proof. induction l as [|c l IH]; simpl; [done|]. by rewrite IH. Qed.

Lemma string_of_list_ascii_app (l k : list ascii) :
  string_of_list_ascii (l ++ k)
  = (string_of_list_ascii l ++ string_of_list_ascii k)%string.
Proof. induction l as [|c l IH]; simpl; [done|]. by rewrite IH. Qed.

(** What [sample] returns: [prime], followed by the character drawn after
    priming and one more character per iteration of the loop. *)
Lemma sample_Ok (n_samples : Z) (prime out : string) :
  sample g net draws n_samples prime = Ok out →
  ∃ new : string,
    out = (prime ++ new)%string ∧
    String.length new = S (Z.to_nat n_samples).
Proof.
  unfold sample.
  destruct (priming g net prime) as [[[preds st] σ]|]; [|done].
  cbn [mbind result_bind].
  destruct preds as [preds|]; [|done].
  destruct (pick_top_n _ _ _ _ _) as [σ1 [c|e]]; [|done].
  cbn [mbind result_bind].
  destruct (append_char g _ c) as [samples'|] eqn:Happ; [|done].
  cbn [mbind result_bind].
  apply append_char_Ok in Happ as [ch ->].
  destruct (generate _ _ _ _ _ _ _ _ _) as [l|] eqn:Hgen; [|done].
  cbn [mbind result_bind]. intros [= <-].
  apply generate_Ok in Hgen as (new & -> & Hlen).
  exists (string_of_list_ascii (ch :: new)). split.
  - rewrite <- app_assoc, string_of_list_ascii_app.
    by rewrite string_of_list_ascii_of_string.
  - rewrite length_string_of_list_ascii. simpl. by rewrite Hlen.
Qed.

Lemma sample_Raise_bound (n_samples : Z) (prime : string) (e : exn) :
  prime ≠ ""%string →
  sample g net draws n_samples prime = Raise e → is_unbound e = false.
Proof.
  intros Hne. unfold sample.
  destruct (priming g net prime) as [[[preds st] σ]|e'] eqn:Hprime;
    cbn [mbind result_bind].
  - apply prime_network_Ok in Hprime as [[Hnil _]|[_ [l ->]]].
    { destruct prime; [done|discriminate Hnil]. }
    destruct (pick_top_n _ _ _ _ _) as [σ1 r] eqn:Hpick.
    apply (f_equal snd) in Hpick; simpl in Hpick.
    destruct r as [c|e']; cbn [mbind result_bind].
    + destruct (append_char g _ c) as [samples'|e'] eqn:Happ;
        cbn [mbind result_bind].
      * destruct (generate _ _ _ _ _ _ _ _ _) as [l'|e'] eqn:Hgen;
          cbn [mbind result_bind]; [done|].
        intros [= <-]. by eapply generate_Raise.
      * apply append_char_Raise in Happ as ->. by intros [= <-].
    + apply pick_top_n_Raise in Hpick as ->. by intros [= <-].
  - apply prime_network_Raise in Hprime as (c & _ & _ & ->). by intros [= <-].
Qed.

Lemma length_string_append (a b : string) :
  String.length (a +:+ b) = String.length a + String.length b.
Proof. induction a as [|c a IH]; simpl; [done|]. by rewrite IH. Qed.

End sample.

(** C1. What the code returns in place of a text of length
    [len(prime) + n_samples]: [prime] comes first, verbatim, but one
    character is drawn after the priming loop, before the loop that runs
    [n_samples] times, so that the text has [len(prime) + n_samples + 1]
    characters. *)
Theorem sample_one_character_more (g : globals) (net : network)
    (draws : nat → Q) (n_samples : Z) (prime out : string) :
  (0 ≤ n_samples)%Z →
  sample g net draws n_samples prime = Ok out →
  (∃ new, out = prime +:+ new) ∧
  Z.of_nat (String.length out)
  = (Z.of_nat (String.length prime) + n_samples + 1)%Z.
Proof.
  intros Hn (new & -> & Hlen)%sample_Ok. split; [by exists new|].
  rewrite length_string_append, Hlen. lia.
Qed.

Lemma sample_one_character_more_witness :
  let g := build_globals ["a"; "b"; "c"]%char in
  sample g toy_net (λ _, 0%Q) 2 "ab" = Ok "abaaa"%string ∧
  (∃ new, "abaaa"%string = "ab" +:+ new) ∧
  Z.of_nat (String.length "abaaa") = (Z.of_nat (String.length "ab") + 2 + 1)%Z.
Proof.
  intros g. split; [vm_compute; reflexivity|].
  apply (sample_one_character_more g toy_net (λ _, 0%Q) 2 "ab" "abaaa").
  - lia.
  - vm_compute; reflexivity.
Defined.

(** C7. The priming loop raises the [KeyError] of [vocab_to_int[c]] if and
    only if some character of [prime] is not a key of [vocab_to_int]; it
    runs to its end when every character is a key; and [sample] handles
    nothing, so whatever the priming loop raises is what [sample] raises. *)
Theorem priming_unknown_character (g : globals) (net : network)
    (draws : nat → Q) (n_samples : Z) (prime : string) :
  ((∃ c, priming g net prime = Raise (KeyError (inl c))) ↔
   (∃ c, c ∈ list_ascii_of_string prime ∧ vocab_to_int g !! c = None)) ∧
  ((∀ c, c ∈ list_ascii_of_string prime → is_Some (vocab_to_int g !! c)) →
   is_ok (priming g net prime) = true) ∧
  (∀ e, priming g net prime = Raise e →
        sample g net draws n_samples prime = Raise e).
Proof.
  split_and!.
  - split.
    + intros [c Hc]. apply prime_network_Raise in Hc as (c' & Hin & Hnone & _).
      by exists c'.
    + intros (c & Hin & Hnone).
      destruct (priming g net prime) as [r|e] eqn:Hprime.
      * assert (is_ok (priming g net prime) = true) as Hok by (by rewrite Hprime).
        exfalso. unfold priming in Hok. clear Hprime r.
        revert Hok. generalize (@None nat), (initial_state net), (∅ : store).
        induction (list_ascii_of_string prime) as [|c' cs IH];
          intros preds st σ; simpl; [by apply elem_of_nil in Hin|].
        destruct (decide (c' = c)) as [->|Hne]; [by rewrite Hnone|].
        destruct (vocab_to_int g !! c') as [x|]; [|done].
        destruct (sess_run net x st σ) as [[l st1] σ1].
        apply IH. by apply elem_of_cons in Hin as [?|?].
      * apply prime_network_Raise in Hprime as (c' & _ & _ & ->). by exists c'.
  - apply prime_network_known.
  - intros e He. unfold sample. by rewrite He.
Qed.

Lemma priming_unknown_character_witness :
  let g := build_globals ["a"; "b"; "c"]%char in
  priming g toy_net "abz" = Raise (KeyError (inl "z"%char)) ∧
  sample g toy_net (λ _, 0%Q) 3 "abz" = Raise (KeyError (inl "z"%char)) ∧
  is_ok (priming g toy_net "abc") = true.
Proof.
  intros g. split; [vm_compute; reflexivity|]. split.
  - apply (proj2 (proj2 (priming_unknown_character g toy_net (λ _, 0%Q) 3 "abz"))).
    vm_compute; reflexivity.
  - apply (proj1 (proj2 (priming_unknown_character g toy_net (λ _, 0%Q) 3 "abc"))).
    intros c Hc. simpl in Hc.
    repeat (apply elem_of_cons in Hc as [->|Hc]; [vm_compute; eauto|]).
    by apply elem_of_nil in Hc.
Defined.

(** C10. With the empty [prime] the priming loop never binds [preds], and
    the first [pick_top_n(preds, ...)] raises [UnboundLocalError] before
    anything is returned; with a non-empty [prime] no
    [UnboundLocalError] is raised, whatever else happens. *)
Theorem sample_empty_prime_unbound (g : globals) (net : network)
    (draws : nat → Q) (n_samples : Z) :
  sample g net draws n_samples "" = Raise (UnboundLocalError "preds") ∧
  (∀ prime e, prime ≠ ""%string →
              sample g net draws n_samples prime = Raise e →
              is_unbound e = false).
Proof.
  split; [done|]. intros prime e. apply sample_Raise_bound.
Qed.

Lemma sample_empty_prime_unbound_witness :
  let g := build_globals ["a"; "b"; "c"]%char in
  sample g toy_net (λ _, 0%Q) 3 "" = Raise (UnboundLocalError "preds") ∧
  is_unbound (KeyError (inl "z"%char)) = false.
Proof.
  intros g.
  pose proof (sample_empty_prime_unbound g toy_net (λ _, 0%Q) 3) as [Hempty Hbound].
  split; [exact Hempty|].
  apply (Hbound "abz"%string); [discriminate|vm_compute; reflexivity].
Defined.

(** ** The vocabulary *)

Section vocabulary.

Variable cs : list ascii.
Hypothesis Hcs : NoDup cs.

Let g : globals := build_globals cs.

Lemma elem_of_zip_numbered (j : nat) (l : list ascii) (i : Z) (c : ascii) :
  (i, c) ∈ zip (Z.of_nat <$> seq j (length l)) l ↔
  ∃ k, i = Z.of_nat (j + k) ∧ l !! k = Some c.
Proof.
  revert j. induction l as [|d l IH]; intros j; simpl.
  - split; [by intros ?%elem_of_nil|by intros (k & _ & ?)].
  - rewrite elem_of_cons, IH. split.
    + intros [[= -> ->]|(k & -> & Hk)].
      * exists 0. by rewrite Nat.add_0_r.
      * exists (S k). split; [f_equal; lia|done].
    + intros ([|k] & -> & Hk); simpl in Hk.
      * left. injection Hk as ->. by rewrite Nat.add_0_r.
      * right. exists k. split; [f_equal; lia|done].
Qed.

Lemma int_to_vocab_lookup (i : Z) (c : ascii) :
  int_to_vocab g !! i = Some c ↔ (0 ≤ i)%Z ∧ cs !! Z.to_nat i = Some c.
Proof.
  unfold g, build_globals; simpl.
  rewrite <- elem_of_list_to_map.
  - rewrite elem_of_zip_numbered. split.
    + intros (k & -> & Hk). simpl. split; [lia|]. by rewrite Nat2Z.id.
    + intros [Hi Hc]. exists (Z.to_nat i). simpl. split; [lia|done].
  - rewrite fst_zip by (rewrite length_fmap, length_seq; lia).
    apply NoDup_fmap_2; [apply _|apply NoDup_seq].
Qed.

Lemma vocab_to_int_lookup (c : ascii) (i : Z) :
  vocab_to_int g !! c = Some i ↔ (0 ≤ i)%Z ∧ cs !! Z.to_nat i = Some c.
Proof.
  unfold g, build_globals; simpl.
  rewrite <- elem_of_list_to_map.
  - rewrite list_elem_of_fmap. split.
    + intros ([i' c'] & [= -> ->] & Hin). simpl in *.
      apply elem_of_zip_numbered in Hin as (k & -> & Hk).
      simpl. split; [lia|]. by rewrite Nat2Z.id.
    + intros [Hi Hc]. exists (i, c). split; [done|].
      apply elem_of_zip_numbered. exists (Z.to_nat i). simpl. split; [lia|done].
  - rewrite <- list_fmap_compose.
    rewrite (list_fmap_ext _ snd (zip _ cs)) by done.
    by rewrite snd_zip by (rewrite length_fmap, length_seq; lia).
Qed.

Lemma size_vocab : size (vocab g) = length cs.
Proof. unfold g, build_globals; simpl. by apply size_list_to_set. Qed.

Lemma vocab_to_int_known (c : ascii) :
  c ∈ cs → ∃ i, vocab_to_int g !! c = Some i.
Proof.
  intros [k Hk]%list_elem_of_lookup_1. exists (Z.of_nat k).
  apply vocab_to_int_lookup. split; [lia|]. by rewrite Nat2Z.id.
Qed.

Lemma vocab_round_trip_lemma :
  (∀ c i, vocab_to_int g !! c = Some i ↔ int_to_vocab g !! i = Some c) ∧
  (∀ c, c ∈ cs ↔ is_Some (vocab_to_int g !! c)) ∧
  (∀ i, (0 ≤ i < Z.of_nat (size (vocab g)))%Z ↔ is_Some (int_to_vocab g !! i)).
Proof.
  split_and!.
  - intros c i. by rewrite vocab_to_int_lookup, int_to_vocab_lookup.
  - intros c. split; [intros Hc; by apply vocab_to_int_known|].
    intros [i [_ Hi]%vocab_to_int_lookup]. by eapply list_elem_of_lookup_2.
  - intros i. rewrite size_vocab. split.
    + intros Hi. destruct (lookup_lt_is_Some_2 cs (Z.to_nat i)) as [c Hc]; [lia|].
      exists c. apply int_to_vocab_lookup. split; [lia|done].
    + intros [c [Hi Hc%lookup_lt_Some]%int_to_vocab_lookup]. lia.
Qed.

End vocabulary.

Section encoding.

Variable cs : list ascii.
Hypothesis Hcs : NoDup cs.

Let g : globals := build_globals cs.

Lemma encode_known (text : string) :
  (∀ c, c ∈ list_ascii_of_string text → c ∈ cs) →
  ∃ chars, encode (vocab_to_int g) text = Ok chars ∧
           Forall2 (λ c i, vocab_to_int g !! c = Some i)
                   (list_ascii_of_string text) chars.
Proof.
  unfold encode. induction (list_ascii_of_string text) as [|c l IH]; intros Hall.
  - by exists [].
  - destruct IH as (chars & Henc & Hall2); [intros c' Hc'; apply Hall; by right|].
    destruct (vocab_to_int_known cs Hcs c) as [i Hi]; [apply Hall; by left|].
    exists (i :: chars). cbn [foldr]. fold g in Hi. rewrite Hi, Henc.
    split; [done|]. by constructor.
Qed.

Lemma decode_encoded (l : list ascii) (chars : list Z) :
  Forall2 (λ c i, vocab_to_int g !! c = Some i) l chars →
  decode (int_to_vocab g) chars = Ok (string_of_list_ascii l).
Proof.
  unfold decode. induction 1 as [|c i l chars Hci _ IH]; cbn [foldr]; [done|].
  pose proof (vocab_round_trip_lemma cs Hcs) as (Hrt & _ & _).
  apply Hrt in Hci. fold g in Hci. by rewrite Hci, IH.
Qed.

Lemma foldl_max_spec (x : Z) (r : list Z) :
  foldl Z.max x r ∈ x :: r ∧ Forall (λ y, (y ≤ foldl Z.max x r)%Z) (x :: r).
Proof.
  revert x. induction r as [|y r IH]; intros x; simpl.
  - split; [by left|]. by constructor.
  - destruct (IH (Z.max x y)) as [Hin Hall].
    apply Forall_cons in Hall as [Hm Hall]. split.
    + apply elem_of_cons in Hin as [Heq|Hin]; [|by right; right].
      rewrite Heq. destruct (Z.max_spec x y) as [[_ ->]|[_ ->]];
        [right; left|left]; done.
    + constructor; [lia|]. constructor; [lia|done].
Qed.

End encoding.

(** X1. The two dictionaries invert each other: [vocab_to_int[c] == i]
    exactly when [int_to_vocab[i] == c]; the keys of [vocab_to_int] are the
    characters of the vocabulary and the keys of [int_to_vocab] are the
    codes [0 .. len(vocab) - 1]. *)
Theorem vocab_round_trip (cs : list ascii) :
  NoDup cs →
  let g := build_globals cs in
  (∀ c i, vocab_to_int g !! c = Some i ↔ int_to_vocab g !! i = Some c) ∧
  (∀ c, c ∈ cs ↔ is_Some (vocab_to_int g !! c)) ∧
  (∀ i, (0 ≤ i < Z.of_nat (size (vocab g)))%Z ↔ is_Some (int_to_vocab g !! i)).
Proof. intros Hcs. by apply vocab_round_trip_lemma. Qed.

Lemma vocab_round_trip_witness :
  let g := build_globals ["a"; "b"; "c"]%char in
  (∀ c i, vocab_to_int g !! c = Some i ↔ int_to_vocab g !! i = Some c) ∧
  (∀ c, c ∈ ["a"; "b"; "c"]%char ↔ is_Some (vocab_to_int g !! c)) ∧
  (∀ i, (0 ≤ i < Z.of_nat (size (vocab g)))%Z ↔ is_Some (int_to_vocab g !! i)).
Proof.
  apply (vocab_round_trip ["a"; "b"; "c"]%char).
  apply (bool_decide_unpack _). reflexivity.
Defined.

(** X2. The text the vocabulary was built from is encoded without a
    [KeyError], one code per character, and looking the codes up in
    [int_to_vocab] gives the text back. *)
Theorem encode_own_text (cs : list ascii) (text : string) :
  enumerates cs text →
  let g := build_globals cs in
  ∃ chars, encode (vocab_to_int g) text = Ok chars ∧
           length chars = String.length text ∧
           decode (int_to_vocab g) chars = Ok text.
Proof.
  intros [Hcs Hin] g. subst g.
  destruct (encode_known cs Hcs text) as (chars & Henc & Hall).
  { intros c Hc. by apply Hin. }
  exists chars. split; [done|]. split.
  - apply Forall2_length in Hall. rewrite <- Hall.
    by rewrite <- length_string_of_list_ascii, string_of_list_ascii_of_string.
  - rewrite (decode_encoded cs Hcs _ _ Hall).
    by rewrite string_of_list_ascii_of_string.
Qed.

Lemma encode_own_text_witness :
  let g := build_globals ["b"; "a"; "c"]%char in
  ∃ chars, encode (vocab_to_int g) "abcabcabcabc" = Ok chars ∧
           length chars = String.length "abcabcabcabc" ∧
           decode (int_to_vocab g) chars = Ok "abcabcabcabc"%string.
Proof.
  apply (encode_own_text ["b"; "a"; "c"]%char "abcabcabcabc").
  split.
  - apply (bool_decide_unpack _). reflexivity.
  - intros c. simpl. rewrite !elem_of_cons, !elem_of_nil. tauto.
Defined.

(** X3. Every code of the encoded text lies in [0 .. len(vocab) - 1], and
    for a text that is not empty the largest code is [len(vocab) - 1]:
    [np.max(chars)+1] is the size of the vocabulary. *)
Theorem n_classes_is_vocab_size (cs : list ascii) (text : string) (chars : list Z) :
  enumerates cs text → text ≠ ""%string →
  let g := build_globals cs in
  encode (vocab_to_int g) text = Ok chars →
  Forall (λ i, (0 ≤ i < Z.of_nat (size (vocab g)))%Z) chars ∧
  n_classes chars = Ok (Z.of_nat (size (vocab g))).
Proof.
  intros [Hcs Hin] Hne g Henc. subst g.
  destruct (encode_known cs Hcs text) as (chars' & Henc' & Hall).
  { intros c Hc. by apply Hin. }
  rewrite Henc in Henc'. injection Henc' as <-.
  rewrite size_vocab by done.
  assert (Forall (λ i, (0 ≤ i < Z.of_nat (length cs))%Z) chars) as Hrange.
  { apply Forall_forall. intros i Hi.
    apply list_elem_of_lookup_1 in Hi as [k Hk].
    destruct (Forall2_lookup_r _ _ _ _ _ Hall Hk) as (c & _ & Hc).
    apply vocab_to_int_lookup in Hc as [Hi Hc%lookup_lt_Some]; [lia|done]. }
  split; [done|].
  destruct chars as [|x r].
  { apply Forall2_nil_inv_r in Hall. destruct text; [done|discriminate Hall]. }
  unfold n_classes, amax. simpl.
  destruct (foldl_max_spec x r) as [Hmax Hle]. f_equal.
  assert (0 < length cs) as Hpos.
  { apply Forall_cons in Hrange as [? _]. lia. }
  destruct (lookup_lt_is_Some_2 cs (length cs - 1)) as [c Hc]; [lia|].
  assert (c ∈ list_ascii_of_string text) as Hct.
  { apply Hin. by eapply list_elem_of_lookup_2. }
  apply list_elem_of_lookup_1 in Hct as [k Hk].
  destruct (Forall2_lookup_l _ _ _ _ _ Hall Hk) as (i & Hi & Hci).
  apply vocab_to_int_lookup in Hci as [Hi0 Hci]; [|done].
  pose proof (NoDup_lookup _ _ _ _ Hcs Hci Hc) as Heq.
  rewrite Forall_forall in Hle, Hrange.
  pose proof (Hle i ltac:(by eapply list_elem_of_lookup_2)) as Hle'.
  pose proof (Hrange _ Hmax) as Hmax'. simpl in *. lia.
Qed.

Lemma n_classes_is_vocab_size_witness :
  let g := build_globals ["b"; "a"; "c"]%char in
  Forall (λ i, (0 ≤ i < Z.of_nat (size (vocab g)))%Z)
         [1; 0; 2; 1; 0; 2]%Z ∧
  n_classes [1; 0; 2; 1; 0; 2]%Z = Ok (Z.of_nat (size (vocab g))).
Proof.
  apply (n_classes_is_vocab_size ["b"; "a"; "c"]%char "abcabc").
  - split; [apply (bool_decide_unpack _); reflexivity|].
    intros c. simpl. rewrite !elem_of_cons, !elem_of_nil. tauto.
  - discriminate.
  - vm_compute. reflexivity.
Defined.

(** ** More on [split_data] *)

Section split_data_forward.
Implicit Types chars : list Z.






Lemma quot_of_nat (a b : nat) :
  0 < b → Z.quot (Z.of_nat a) (Z.of_nat b) = Z.of_nat (a / b).
Proof. intros Hb. by rewrite Z.quot_div_nonneg, <- Nat2Z.inj_div by lia. Qed.

Lemma int_mul_bounds (n : Z) (f : Q) :
  (0 ≤ n)%Z → (0 <= f)%Q → (f <= 1)%Q → (0 ≤ int_mul n f ≤ n)%Z.
Proof.
  intros Hn H0 H1. unfold int_mul.
  unfold Qle in H0, H1; simpl in H0, H1.
  split; [apply Z.quot_pos; nia|].
  apply Z.quot_le_upper_bound; nia.
Qed.


(** What the call returns when both streams divide into [b] rows. *)
Lemma split_data_forward chars (b t wy : nat) (split_frac : Q) :
  0 < b → 0 < t →
  let n := length chars / (b * t) in
  let w := n * t in
  let m := b * w in
  let cut := (int_mul (Z.of_nat n) split_frac * Z.of_nat t)%Z in
  let X := Array2 (b, w) (chunks b w (take m chars)) in
  let Y := Array2 (b, wy) (chunks b wy (take m (drop 1 chars))) in
  length (take m (drop 1 chars)) = b * wy →
  split_data chars (Z.of_nat b) (Z.of_nat t) split_frac
  = Ok (slice_cols None (Some cut) X, slice_cols None (Some cut) Y,
        slice_cols (Some cut) None X, slice_cols (Some cut) None Y).
Proof.
  intros Hb Ht n w m cut X Y Hy. unfold split_data, int_div.
  destruct (Z.eqb_spec (Z.of_nat b * Z.of_nat t) 0) as [|_]; [nia|].
  cbn [mbind result_bind].
  assert (Z.quot (len chars) (Z.of_nat b * Z.of_nat t) = Z.of_nat n) as ->.
  { unfold len, n. rewrite <- Nat2Z.inj_mul. apply quot_of_nat. nia. }
  rewrite slice_to, slice_between by lia.
  replace (Z.to_nat (Z.of_nat n * (Z.of_nat b * Z.of_nat t) + 1) - Z.to_nat 1)
    with m by (unfold m, w; nia).
  replace (Z.to_nat (Z.of_nat n * (Z.of_nat b * Z.of_nat t)))
    with m by (unfold m, w; nia).
  change (Z.to_nat 1) with 1.
  assert (m ≤ length chars) as Hm.
  { unfold m, w, n. pose proof (Nat.Div0.mul_div_le (length chars) (b * t)). nia. }
  rewrite (split_divides (take m chars) b w)
    by (done || rewrite length_take; lia).
  cbn [mbind result_bind].
  rewrite stack_chunks by (done || rewrite length_take; lia).
  cbn [mbind result_bind].
  rewrite (split_divides (take m (drop 1 chars)) b wy) by done.
  cbn [mbind result_bind].
  rewrite stack_chunks by done.
  cbn [mbind result_bind]. done.
Qed.

End split_data_forward.

Lemma spare_element (chars : list Z) (b t : nat) :
  0 < b → 0 < t → length chars mod (b * t) ≠ 0 →
  b * (length chars / (b * t) * t) < length chars.
Proof.
  intros Hb Ht Hmod.
  pose proof (Nat.div_mod_eq (length chars) (b * t)) as Hdiv. nia.
Qed.

Lemma split_data_spare (chars : list Z) (b t : nat) (split_frac : Q) :
  0 < b → 0 < t → length chars mod (b * t) ≠ 0 →
  let n := length chars / (b * t) in
  let w := n * t in
  let m := b * w in
  let cut := (int_mul (Z.of_nat n) split_frac * Z.of_nat t)%Z in
  let X := Array2 (b, w) (chunks b w (take m chars)) in
  let Y := Array2 (b, w) (chunks b w (take m (drop 1 chars))) in
  split_data chars (Z.of_nat b) (Z.of_nat t) split_frac
  = Ok (slice_cols None (Some cut) X, slice_cols None (Some cut) Y,
        slice_cols (Some cut) None X, slice_cols (Some cut) None Y).
Proof.
  intros Hb Ht Hmod n w m cut X Y.
  pose proof (spare_element chars b t Hb Ht Hmod) as Hm.
  apply (split_data_forward chars b t w); try done.
  fold n w m. rewrite length_take, length_drop. fold n w m in Hm. lia.
Qed.

Lemma split_cut_bounds (n t : nat) (split_frac : Q) :
  (0 <= split_frac)%Q → (split_frac <= 1)%Q →
  let k := Z.to_nat (int_mul (Z.of_nat n) split_frac) in
  k ≤ n ∧ (int_mul (Z.of_nat n) split_frac * Z.of_nat t)%Z = Z.of_nat (k * t).
Proof.
  intros H0 H1 k.
  pose proof (int_mul_bounds (Z.of_nat n) split_frac ltac:(lia) H0 H1) as Hk.
  unfold k. split; [lia|]. rewrite Nat2Z.inj_mul, Z2Nat.id; lia.
Qed.





Lemma np_split_Raise {A : Type} (l : list A) (sections : Z) (e : exn) :
  Np.split l sections = Raise e →
  (sections = 0%Z ∧ e = ZeroDivisionError) ∨ (sections ≠ 0%Z ∧ e = ValueError).
Proof.
  unfold Np.split. destruct (Z.eqb_spec sections 0) as [->|Hne].
  - intros [= <-]. by left.
  - destruct (negb _); [intros [= <-]; by right|].
    destruct (sections <? 0)%Z; [intros [= <-]; by right|done].
Qed.

Lemma np_split_negative {A : Type} (l : list A) (sections : Z) :
  (sections < 0)%Z → Np.split l sections = Raise ValueError.
Proof.
  intros Hneg. unfold Np.split.
  destruct (Z.eqb_spec sections 0) as [|_]; [lia|].
  destruct (negb _); [done|].
  by destruct (Z.ltb_spec sections 0) as [_|]; [|lia].
Qed.

Lemma stack_Raise (pieces : list (list Z)) (e : exn) :
  stack pieces = Raise e → e = ValueError.
Proof.
  unfold stack. destruct pieces as [|r ps]; [by intros [= <-]|].
  destruct (forallb _ _); [done|by intros [= <-]].
Qed.

(** X6. The exceptions of [split_data]: it raises [ZeroDivisionError]
    exactly when [batch_size] or [num_steps] is zero, every other exception
    it raises is the [ValueError] of [np.split] or [np.stack], and a
    negative [batch_size] with a non-zero [num_steps] always ends in that
    [ValueError]. *)
Theorem split_data_exceptions (chars : list Z) (batch_size num_steps : Z)
    (split_frac : Q) :
  (split_data chars batch_size num_steps split_frac = Raise ZeroDivisionError
   ↔ batch_size = 0%Z ∨ num_steps = 0%Z) ∧
  (∀ e, split_data chars batch_size num_steps split_frac = Raise e →
        e = ZeroDivisionError ∨ e = ValueError) ∧
  ((batch_size < 0)%Z → num_steps ≠ 0%Z →
   split_data chars batch_size num_steps split_frac = Raise ValueError).
Proof.
  assert (∀ e, (batch_size * num_steps)%Z ≠ 0%Z →
               split_data chars batch_size num_steps split_frac = Raise e →
               e = ValueError) as Hvalue.
  { intros e Hs. unfold split_data, int_div.
    destruct (Z.eqb_spec (batch_size * num_steps) 0) as [|_]; [done|].
    cbn [mbind result_bind].
    destruct (Np.split (slice None _ _) batch_size) as [xs|e1] eqn:Hxs;
      cbn [mbind result_bind];
      [|intros [= <-]; apply np_split_Raise in Hxs as [[-> _]|[_ ->]]; [lia|done]].
    destruct (stack xs) as [x|e1] eqn:Hx; cbn [mbind result_bind];
      [|intros [= <-]; by apply stack_Raise in Hx].
    destruct (Np.split (slice (Some _) _ _) batch_size) as [ys|e1] eqn:Hys;
      cbn [mbind result_bind];
      [|intros [= <-]; apply np_split_Raise in Hys as [[-> _]|[_ ->]]; [lia|done]].
    destruct (stack ys) as [y|e1] eqn:Hy; cbn [mbind result_bind];
      [done|intros [= <-]; by apply stack_Raise in Hy]. }
  split_and!.
  - split.
    + intros Hraise. destruct (Z.eq_dec (batch_size * num_steps)%Z 0%Z) as [Hs|Hs].
      * by apply Z.mul_eq_0 in Hs.
      * by apply Hvalue in Hraise.
    + intros Hzero. unfold split_data, int_div.
      by destruct (Z.eqb_spec (batch_size * num_steps) 0) as [_|Hs]; [|nia].
  - intros e Hraise. destruct (Z.eq_dec (batch_size * num_steps)%Z 0%Z) as [Hs|Hs].
    + left. revert Hraise. unfold split_data, int_div.
      destruct (Z.eqb_spec (batch_size * num_steps) 0) as [_|]; [|done].
      by intros [= <-].
    + right. by apply Hvalue.
  - intros Hneg Hns. unfold split_data, int_div.
    destruct (Z.eqb_spec (batch_size * num_steps) 0) as [|_]; [nia|].
    cbn [mbind result_bind]. rewrite !np_split_negative by done. reflexivity.
Qed.

Lemma split_data_exceptions_witness :
  split_data [0; 1; 2; 0; 1]%Z 2 0 (9 # 10) = Raise ZeroDivisionError ∧
  split_data [0; 1; 2; 0; 1]%Z (-2) 1 (9 # 10) = Raise ValueError.
Proof.
  split.
  - apply (proj1 (split_data_exceptions [0; 1; 2; 0; 1]%Z 2 0 (9 # 10))).
    by right.
  - apply (proj2 (proj2 (split_data_exceptions [0; 1; 2; 0; 1]%Z (-2) 1 (9 # 10))));
      lia.
Defined.



(** ** More on [get_batch] *)

(** X8. The edges of [get_batch]: an empty list of arrays raises
    [IndexError] and [num_steps = 0] raises [ZeroDivisionError]; otherwise
    nothing is raised, the number of items is fixed by the column count of
    the first array alone, every item has as many windows as there are
    arrays, and a [num_steps] that is negative or larger than the column
    count yields nothing at all. *)
Theorem get_batch_edges (a0 : ndarray2) (rest : list ndarray2) (num_steps : Z) :
  get_batch [] num_steps = Raise IndexError ∧
  get_batch (a0 :: rest) 0 = Raise ZeroDivisionError ∧
  (num_steps ≠ 0%Z →
   ∃ ws, get_batch (a0 :: rest) num_steps = Ok ws ∧
         length ws = Z.to_nat (Z.quot (Z.of_nat (shape a0).2) num_steps) ∧
         Forall (λ w, length w = S (length rest)) ws) ∧
  ((num_steps < 0 ∨ Z.of_nat (shape a0).2 < num_steps)%Z →
   get_batch (a0 :: rest) num_steps = Ok []).
Proof.
  assert (num_steps ≠ 0%Z →
          get_batch (a0 :: rest) num_steps
          = Ok ((λ b, (λ x, window num_steps x b) <$> a0 :: rest)
                <$> range (Z.quot (Z.of_nat (shape a0).2) num_steps))) as Hget.
  { intros Hns. unfold get_batch, int_div. destruct (shape a0) as [B C]. simpl.
    by destruct (Z.eqb_spec num_steps 0). }
  split_and!.
  - done.
  - unfold get_batch. by destruct (shape a0).
  - intros Hns. eexists. split; [by apply Hget|]. split.
    + unfold range. by rewrite !length_fmap, length_seq.
    + apply Forall_fmap, Forall_forall. intros b _. simpl.
      by rewrite length_fmap.
  - intros Hout. rewrite Hget by lia. unfold range.
    assert (Z.quot (Z.of_nat (shape a0).2) num_steps ≤ 0)%Z as Hq.
    { destruct Hout as [Hneg|Hbig].
      - replace num_steps with (- - num_steps)%Z by lia.
        rewrite Z.quot_opp_r by lia.
        assert (0 ≤ Z.quot (Z.of_nat (shape a0).2) (- num_steps))%Z; [|lia].
        apply Z.quot_pos; lia.
      - rewrite Z.quot_small; lia. }
    by replace (Z.to_nat _) with 0 by lia.
Qed.

Lemma get_batch_edges_witness :
  let a0 := Array2 (2, 3) [[1; 2; 3]; [4; 5; 6]]%Z in
  (∃ ws, get_batch [a0; a0; a0] 1 = Ok ws ∧
         length ws = Z.to_nat (Z.quot (Z.of_nat (shape a0).2) 1) ∧
         Forall (λ w, length w = 3) ws) ∧
  get_batch [a0; a0; a0] 4 = Ok [] ∧
  get_batch [a0; a0; a0] (-1) = Ok [].
Proof.
  intros a0.
  pose proof (get_batch_edges a0 [a0; a0] 1) as (_ & _ & H1 & _).
  pose proof (get_batch_edges a0 [a0; a0] 4) as (_ & _ & _ & H4).
  pose proof (get_batch_edges a0 [a0; a0] (-1)) as (_ & _ & _ & Hm).
  split; [apply H1; lia|]. split; [apply H4; right; simpl; lia|].
  apply Hm; left; lia.
Defined.



(** X10. [get_batch] keeps the one-step shift between inputs and targets:
    if [Y[i][j] == X[i][j+1]] in the arrays, then inside every yielded pair
    the target window is the input window shifted by one column, and the
    last column of a target window is the first column of the next input
    window. *)
Theorem get_batch_shift (X Y : ndarray2) (B C s : nat)
    (ws : list (list ndarray2)) :
  wf X → wf Y → shape X = (B, C) → shape Y = (B, C) → 0 < s →
  (∀ i j v, at2 X i (j + 1) = Some v → at2 Y i j = Some v) →
  get_batch [X; Y] (Z.of_nat s) = Ok ws →
  (∀ b xw yw, ws !! b = Some [xw; yw] →
     ∀ i j v, at2 xw i (j + 1) = Some v → at2 yw i j = Some v) ∧
  (∀ b xw yw xw' yw',
     ws !! b = Some [xw; yw] → ws !! (b + 1) = Some [xw'; yw'] →
     ∀ i v, at2 xw' i 0 = Some v → at2 yw i (s - 1) = Some v).
Proof.
  intros HwX HwY HX HY Hs Hshift Hget.
  rewrite (get_batch_pair B C s Hs X Y HX) in Hget. injection Hget as <-.
  assert (∀ b xw yw,
            ((λ b, [window (Z.of_nat s) X b; window (Z.of_nat s) Y b])
               <$> range (Z.of_nat (C / s))) !! b = Some [xw; yw] →
            window_of B s X b xw ∧ window_of B s Y b yw) as Hwin.
  { intros b xw yw. unfold range.
    rewrite Nat2Z.id, <- list_fmap_compose, list_lookup_fmap.
    destruct (seq 0 (C / s) !! b) as [b'|] eqn:Hb; [|done].
    apply lookup_seq in Hb as [-> Hb]. simpl. intros [= <- <-].
    split; by apply (window_is_window_of B C s). }
  assert (∀ a b w i j v, window_of B s a b w → at2 w i j = Some v → j < s)
    as Hcol.
  { intros a b w i j v ([_ Hcols] & Hshape & _). unfold at2.
    destruct (rows w !! i) as [r|] eqn:Hr; [|done]. simpl.
    intros Hj%lookup_lt_Some.
    rewrite Forall_forall in Hcols.
    rewrite (Hcols r) in Hj by (by eapply list_elem_of_lookup_2).
    by rewrite Hshape in Hj. }
  split.
  - intros b xw yw Hb i j v Hv.
    destruct (Hwin _ _ _ Hb) as [Hxw Hyw].
    pose proof (Hcol _ _ _ _ _ _ Hxw Hv) as Hj.
    destruct Hxw as (_ & _ & Hxat). destruct Hyw as (_ & _ & Hyat).
    rewrite Hxat in Hv by done. rewrite Hyat by lia.
    apply Hshift. rewrite <- Hv. f_equal. lia.
  - intros b xw yw xw' yw' Hb Hb' i v Hv.
    destruct (Hwin _ _ _ Hb) as [_ Hyw]. destruct (Hwin _ _ _ Hb') as [Hxw' _].
    destruct Hxw' as (_ & _ & Hxat). destruct Hyw as (_ & _ & Hyat).
    rewrite Hxat in Hv by done. rewrite Hyat by lia.
    apply Hshift. rewrite <- Hv. f_equal. nia.
Qed.

Lemma get_batch_shift_witness :
  let X := Array2 (2, 6) [[1; 2; 3; 4; 5; 6]; [11; 12; 13; 14; 15; 16]]%Z in
  let Y := Array2 (2, 6) [[2; 3; 4; 5; 6; 7]; [12; 13; 14; 15; 16; 17]]%Z in
  ∃ ws, get_batch [X; Y] 3 = Ok ws ∧
    (∀ b xw yw, ws !! b = Some [xw; yw] →
       ∀ i j v, at2 xw i (j + 1) = Some v → at2 yw i j = Some v) ∧
    (∀ b xw yw xw' yw',
       ws !! b = Some [xw; yw] → ws !! (b + 1) = Some [xw'; yw'] →
       ∀ i v, at2 xw' i 0 = Some v → at2 yw i (3 - 1) = Some v).
Proof.
  intros X Y. eexists. split; [vm_compute; reflexivity|].
  apply (get_batch_shift X Y 2 6 3).
  - split; [reflexivity|]. by repeat constructor.
  - split; [reflexivity|]. by repeat constructor.
  - reflexivity.
  - reflexivity.
  - lia.
  - intros i j v. unfold at2, X, Y; simpl.
    destruct i as [|[|i]]; simpl; [| |done];
      do 6 (destruct j as [|j]; simpl; [done|]); done.
  - vm_compute; reflexivity.
Defined.

(** ** More on [pick_top_n] *)

Section pick_top_n_more.
Local Open Scope Q_scope.
Implicit Types (σ : store) (p q : list Q).

Lemma count_greater_snoc (x : Q) p (y : Q) :
  count_greater x (p ++ [y]) = (count_greater x p + greater_at x [y] 0)%nat.
Proof.
  unfold count_greater, greater_at. rewrite filter_app, length_app. f_equal.
  simpl. rewrite filter_cons, filter_nil. by destruct (decide (x < y)).
Qed.

Lemma count_greater_indices (x : Q) p :
  count_greater x p = sum_list (greater_at x p <$> seq 0 (length p)).
Proof.
  induction p as [|y p IH] using rev_ind; [done|].
  rewrite count_greater_snoc, length_app; simpl.
  rewrite Nat.add_1_r, seq_S, fmap_app, sum_list_append; simpl. f_equal.
  - rewrite IH. f_equal. apply list_fmap_ext. intros _ i Hi%list_elem_of_lookup_2.
    apply elem_of_seq in Hi. unfold greater_at. by rewrite lookup_app_l by lia.
  - unfold greater_at. rewrite list_lookup_middle by done. simpl. lia.
Qed.

Lemma sum_list_below_length {A : Type} (f : A → nat) (l : list A) (x : A) :
  x ∈ l → f x = 0%nat → (∀ y, f y ≤ 1)%nat →
  (sum_list (f <$> l) + 1 ≤ length l)%nat.
Proof.
  intros Hx H0 H1. induction l as [|y l IH]; [by apply elem_of_nil in Hx|].
  csimpl. apply elem_of_cons in Hx as [<-|Hx].
  - rewrite H0. pose proof (sum_list_le_length f l (λ y _, H1 y)). lia.
  - specialize (IH Hx). specialize (H1 y). lia.
Qed.

Lemma top_n_distribution_pos p (top_n : Z) :
  is_distribution p → (1 ≤ top_n)%Z →
  let z := zero_all_but_top top_n p in
  0 < Sampler.sum z ∧
  top_n_distribution top_n p = Some ((λ x, x / Sampler.sum z) <$> z).
Proof.
  intros [Hp Hs] Ht z.
  assert (0 < length p)%nat as Hlen.
  { destruct p; [simpl in Hs; lra|simpl; lia]. }
  assert (0 < Sampler.sum z) as Hz.
  { unfold z. rewrite zero_all_but_top_pos by done.
    apply sum_zeroed_pos; [done|lra|lia]. }
  split; [done|]. unfold top_n_distribution. fold z. by apply true_divide_Some.
Qed.

Lemma existsb_negative_Forall p :
  existsb (λ x, negb (Qle_bool 0 x)) p = false → Forall (λ x, 0 <= x) p.
Proof.
  induction p as [|x p IH]; simpl; [constructor|].
  intros [Hx Hp]%orb_false_elim. constructor; [|by apply IH].
  apply Qle_bool_iff. by destruct (Qle_bool 0 x).
Qed.

Lemma random_choice_Ok_inv (a : Z) (o : option (list Q)) (u : Q) (c : Z) :
  random_choice a o u = Ok c →
  ∃ q, o = Some q ∧ len q = a ∧ is_distribution q ∧
       c = Z.of_nat (searchsorted_right (cumsum q) u).
Proof.
  unfold random_choice. destruct (a <=? 0)%Z; [done|].
  destruct o as [q|]; [|done].
  destruct (Z.eqb_spec (len q) a) as [Hlen|]; [|done]. simpl.
  destruct (existsb _ q) eqn:Hneg; [done|].
  destruct (Qeq_bool (Sampler.sum q) 1) eqn:Hsum; [|done]. simpl.
  intros [= <-]. exists q. split_and!; try done.
  split; [by apply existsb_negative_Forall|by apply Qeq_bool_iff].
Qed.

Lemma true_divide_length p (s : Q) q :
  true_divide p s = Some q → length q = length p.
Proof.
  unfold true_divide. destruct (Qeq_bool s 0); [done|].
  intros [= <-]. by rewrite length_fmap.
Qed.

Lemma length_zero_all_but_top (top_n : Z) p :
  length (zero_all_but_top top_n p) = length p.
Proof. apply length_zero_at. Qed.

Lemma zero_at_id (idx : list nat) p :
  (∀ i, i ∈ idx → p !! i = Some 0) → zero_at idx p = p.
Proof.
  induction idx as [|i idx IH]; intros Hall; simpl; [done|].
  rewrite IH by (intros j Hj; apply Hall; by right).
  apply list_insert_id, Hall. by left.
Qed.

(** Zeroing once more changes nothing when every entry is zero or
    positive. *)
Lemma zero_all_but_top_idempotent p (top_n : Z) :
  Forall (λ x, x = 0 ∨ 0 < x) p → (1 ≤ top_n)%Z →
  zero_all_but_top top_n (zero_all_but_top top_n p) = zero_all_but_top top_n p.
Proof.
  intros Hp Ht.
  rewrite (zero_all_but_top_pos (zero_all_but_top top_n p)) by done.
  rewrite length_zero_all_but_top.
  rewrite (zero_all_but_top_pos p) by done.
  set (k := (length p - Z.to_nat top_n)%nat).
  set (z := zero_at (take k (argsort p)) p).
  apply zero_at_id. intros i Hi.
  assert (i < length p)%nat as Hlt.
  { apply elem_of_take_weaken, elem_of_argsort in Hi.
    unfold z in Hi. by rewrite length_zero_at in Hi. }
  destruct (zeroed_cases p k i Hlt) as [Hzero|Hkept]; [by apply zeroed_dropped|].
  unfold z at 1. rewrite (zeroed_kept p k i Hkept).
  destruct (lookup_lt_is_Some_2 p i Hlt) as [x Hx]. rewrite Hx.
  destruct (Forall_lookup_1 _ _ _ _ Hp Hx) as [->|Hpos]; [done|]. exfalso.
  assert (z !! i = Some x) as Hzi by (unfold z; by rewrite zeroed_kept).
  assert (∀ j, j ∈ take k (argsort p) → j ∈ take k (argsort z)) as Hsub.
  { intros j Hj.
    assert (j < length z)%nat as Hjz.
    { unfold z. rewrite length_zero_at.
      by apply elem_of_take_weaken, elem_of_argsort in Hj. }
    apply elem_of_argsort in Hjz.
    rewrite <- (take_drop k (argsort z)) in Hjz.
    apply elem_of_app in Hjz as [?|Hjd]; [done|].
    pose proof (argsort_ascending z k i j x 0 Hi Hjd Hzi
                  (zeroed_dropped p k j Hj)). lra. }
  assert (NoDup (i :: take k (argsort p))) as Hnd.
  { constructor.
    - intros Hin. pose proof (zeroed_dropped p k i Hin) as Hz0.
      fold z in Hz0. rewrite Hzi in Hz0. injection Hz0 as ->. lra.
    - pose proof (NoDup_argsort p) as Hnd.
      rewrite <- (take_drop k (argsort p)) in Hnd.
      by apply NoDup_app in Hnd as (? & _ & _). }
  assert (i :: take k (argsort p) ⊆+ take k (argsort z)) as Hincl.
  { apply NoDup_submseteq; [done|].
    intros j [->|Hj]%elem_of_cons; [done|by apply Hsub]. }
  apply submseteq_length in Hincl. simpl in Hincl.
  rewrite !length_take, !length_argsort in Hincl.
  unfold z in Hincl. rewrite length_zero_at in Hincl. lia.
Qed.

End pick_top_n_more.

(** X11. The index that [pick_top_n] returns is among the [top_n] most
    likely: on a probability vector [p] and with [top_n >= 1] the returned
    [c] has [p[c] > 0] and fewer than [top_n] entries of [p] are greater
    than [p[c]]. With [top_n = 1] the pick is an entry of maximal
    probability. *)
Theorem pick_top_n_among_top (σ : store) (preds : loc) (p : list Q)
    (top_n : Z) (u : Q) (c : Z) :
  σ !! preds = Some p → is_distribution p → (1 ≤ top_n)%Z →
  (0 <= u)%Q → (u < 1)%Q →
  (pick_top_n preds (len p) top_n u σ).2 = Ok c →
  ∃ x, (0 ≤ c)%Z ∧ p !! Z.to_nat c = Some x ∧ (0 < x)%Q ∧
       count_greater x p < Z.to_nat top_n.
Proof.
  intros Hσ Hp Ht Hlo Hhi. rewrite (pick_top_n_unfold σ preds p) by done. simpl.
  destruct (top_n_distribution_pos p top_n Hp Ht) as [Hs ->].
  destruct (top_n_distribution_spec p top_n Hp Ht) as (q & Hq & Hlen & _ & _ & Hdist).
  destruct (top_n_distribution_pos p top_n Hp Ht) as [_ Hq'].
  rewrite Hq in Hq'. injection Hq' as Hq'. rewrite <- Hq'.
  destruct (random_choice_Ok q u Hdist Hlo Hhi) as (i & y & Hc & Hy & Hpos).
  unfold len in *. rewrite <- Hlen, Hc. intros [= <-].
  rewrite Nat2Z.id.
  rewrite Hq', list_lookup_fmap in Hy.
  rewrite zero_all_but_top_pos in Hy, Hs by done.
  set (k := length p - Z.to_nat top_n) in *.
  destruct (zero_at _ p !! i) as [x|] eqn:Hx; [|done].
  injection Hy as <-.
  assert ((0 < x)%Q) as Hxpos.
  { destruct (Qlt_le_dec 0 x) as [?|Hle]; [done|]. exfalso.
    assert (x / Sampler.sum (zero_at (take k (argsort p)) p) <= 0)%Q; [|lra].
    apply Qle_shift_div_r; lra. }
  assert (i < length p) as Hi.
  { apply lookup_lt_Some in Hx. by rewrite length_zero_at in Hx. }
  destruct (zeroed_cases p k i Hi) as [Hz|Hkept].
  { rewrite (zeroed_dropped p k i Hz) in Hx. injection Hx as <-. lra. }
  rewrite (zeroed_kept p k i Hkept) in Hx.
  exists x. split_and!; [lia|done|done|].
  rewrite count_greater_indices.
  rewrite (sum_list_Permutation _ (greater_at x p <$> argsort p))
    by (apply fmap_Permutation; symmetry; apply argsort_Permutation).
  rewrite <- (take_drop k (argsort p)) at 1.
  rewrite fmap_app, sum_list_append, sum_list_zero.
  - pose proof (sum_list_below_length (greater_at x p) _ i Hkept) as Hsum.
    rewrite length_drop, length_argsort in Hsum.
    assert (sum_list (greater_at x p <$> drop k (argsort p)) + 1
            ≤ length p - k); [|lia].
    apply Hsum.
    + unfold greater_at. rewrite Hx. case_decide; [lra|done].
    + intros j. unfold greater_at. destruct (p !! j); [case_decide|]; lia.
  - intros j Hj. unfold greater_at.
    destruct (p !! j) as [y|] eqn:Hy; [|done].
    pose proof (argsort_ascending p k j i y x Hj Hkept Hy Hx).
    case_decide; [lra|done].
Qed.

Lemma pick_top_n_among_top_witness :
  ∃ x, (0 ≤ 2)%Z ∧ ex_p !! Z.to_nat 2 = Some x ∧ (0 < x)%Q ∧
       count_greater x ex_p < Z.to_nat 2.
Proof.
  apply (pick_top_n_among_top {[ 0 := ex_p ]} 0 ex_p 2 (1 # 2) 2).
  - reflexivity.
  - apply ex_p_is_distribution.
  - lia.
  - unfold Qle; simpl; lia.
  - reflexivity.
  - vm_compute; reflexivity.
Defined.

(** X12. A call of [pick_top_n] that returns was given an array of
    [vocab_size] entries, and the index it returns lies in
    [0 .. vocab_size - 1]. *)
Theorem pick_top_n_in_range (σ : store) (preds : loc) (p : list Q)
    (vocab_size top_n : Z) (u : Q) (c : Z) :
  σ !! preds = Some p → (0 <= u)%Q → (u < 1)%Q →
  (pick_top_n preds vocab_size top_n u σ).2 = Ok c →
  len p = vocab_size ∧ (0 ≤ c < vocab_size)%Z.
Proof.
  intros Hσ Hlo Hhi. rewrite (pick_top_n_unfold σ preds p) by done. simpl.
  intros (q & Hq & Hlen & [Hnn Hsum] & ->)%random_choice_Ok_inv.
  apply true_divide_length in Hq. rewrite length_zero_all_but_top in Hq.
  unfold len in *. rewrite <- Hq. split; [done|]. rewrite <- Hlen.
  pose proof (searchsorted_cumsum_lt q u Hnn Hlo ltac:(lra)). lia.
Qed.

Lemma pick_top_n_in_range_witness :
  len ex_p = 5%Z ∧ (0 ≤ 4 < 5)%Z.
Proof.
  apply (pick_top_n_in_range {[ 0 := ex_p ]} 0 ex_p 5 2 (4 # 5) 4).
  - reflexivity.
  - unfold Qle; simpl; lia.
  - reflexivity.
  - vm_compute; reflexivity.
Defined.



(** X14. The zeroing is idempotent: after a call with [top_n >= 1] on an
    array whose entries are zero or positive, a second call on the same
    array with the same [top_n] and the same draw leaves the array as the
    first call left it and returns what the first call returned. *)
Theorem pick_top_n_twice (σ : store) (preds : loc) (p : list Q)
    (vocab_size top_n : Z) (u : Q) :
  σ !! preds = Some p → Forall (λ x, x = 0%Q ∨ (0 < x)%Q) p → (1 ≤ top_n)%Z →
  let first := pick_top_n preds vocab_size top_n u σ in
  pick_top_n preds vocab_size top_n u first.1 = first.
Proof.
  intros Hσ Hp Ht first. subst first.
  rewrite (pick_top_n_unfold σ preds p) by done. simpl.
  rewrite (pick_top_n_unfold _ preds (zero_all_but_top top_n p))
    by apply lookup_insert_eq.
  unfold top_n_distribution.
  rewrite zero_all_but_top_idempotent by done.
  by rewrite insert_insert_eq.
Qed.

Lemma pick_top_n_twice_witness :
  let first := pick_top_n 0 5 2 (1 # 2) {[ 0 := ex_p ]} in
  pick_top_n 0 5 2 (1 # 2) first.1 = first.
Proof.
  apply (pick_top_n_twice {[ 0 := ex_p ]} 0 ex_p 5 2 (1 # 2)).
  - reflexivity.
  - repeat constructor; right; reflexivity.
  - lia.
Defined.

(** ** More on [sample] *)

Section sample_more.
Local Open Scope Q_scope.

Variable cs : list ascii.
Hypothesis Hcs : NoDup cs.
Variable net : network.
Hypothesis Hnet : ∀ x st,
  is_distribution (run net x st).1 ∧ length (run net x st).1 = length cs.
Variable draws : nat → Q.
Hypothesis Hdraws : ∀ k, 0 <= draws k ∧ draws k < 1.

Let g : globals := build_globals cs.








End sample_more.



(** X16. The copy of [sample] under [tensorboard/] ignores the [prime] it
    is given: whatever is passed, also the empty string, a text that is
    returned starts with "Far" and has [max(n_samples, 0) + 4] characters,
    and no [UnboundLocalError] is raised. *)
Theorem tensorboard_sample_ignores_prime (g : globals) (net : network)
    (draws : nat → Q) (n_samples : Z) (prime : string) :
  (∀ out, Tensorboard.sample g net draws n_samples prime = Ok out →
          ∃ new, out = "Far" +:+ new ∧
                 String.length out = 4 + Z.to_nat n_samples) ∧
  (∀ e, Tensorboard.sample g net draws n_samples prime = Raise e →
        is_unbound e = false) ∧
  (∀ prime', Tensorboard.sample g net draws n_samples prime'
             = Tensorboard.sample g net draws n_samples prime).
Proof.
  unfold Tensorboard.sample. split_and!.
  - intros out (new & -> & Hlen)%sample_Ok. exists new. split; [done|].
    rewrite length_string_append, Hlen. simpl. lia.
  - intros e. by apply sample_Raise_bound.
  - done.
Qed.

Lemma tensorboard_sample_ignores_prime_witness :
  let g := build_globals ["F"; "a"; "r"]%char in
  Tensorboard.sample g toy_net (λ _, 0%Q) 1 "" = Ok "FarFF"%string ∧
  (∃ new, "FarFF"%string = "Far" +:+ new ∧
          String.length "FarFF" = 4 + Z.to_nat 1).
Proof.
  intros g. split; [vm_compute; reflexivity|].
  apply (proj1 (tensorboard_sample_ignores_prime g toy_net (λ _, 0%Q) 1 "")).
  vm_compute; reflexivity.
Defined.

(** ** The training loops *)

Section training.
Import Training.

Variable m : model.
Variables train_x train_y val_x val_y : ndarray2.
Variables (s : nat) (save_every_n : Z).
Variables n_batches iterations : Z.
Hypothesis Hs : 0 < s.
Hypothesis Hsave : save_every_n ≠ 0%Z.

Let num_steps : Z := Z.of_nat s.

Lemma get_batch_two (X Y : ndarray2) :
  ∃ ws, get_batch [X; Y] num_steps = Ok ws ∧
        length ws = (shape X).2 / s ∧ Forall (λ w, length w = 2) ws.
Proof.
  unfold get_batch, int_div, num_steps. destruct (shape X) as [B C]. simpl.
  destruct (Z.eqb_spec (Z.of_nat s) 0) as [|_]; [lia|].
  cbn [mbind result_bind]. eexists. split; [done|].
  rewrite quot_of_nat by done. unfold range. rewrite Nat2Z.id. split.
  - by rewrite !length_fmap, length_seq.
  - apply Forall_fmap, Forall_forall. by intros b _.
Qed.

Lemma validate_loop_Ok (ws : list (list ndarray2)) (v : variables m)
    (val_loss : list Q) (st : rnn_state m) :
  Forall (λ w, length w = 2) ws →
  ∃ r, validate_loop m ws v val_loss st = Ok r.
Proof.
  intros Hws. revert val_loss st.
  induction Hws as [|w ws Hw _ IH]; intros val_loss st; simpl; [by eexists|].
  destruct w as [|x [|y [|? ?]]]; try done.
  destruct (eval_run m v x y st) as [batch_loss st']. apply IH.
Qed.

Lemma validate_Ok (v : variables m) :
  ∃ r, validate m val_x val_y num_steps v = Ok r.
Proof.
  unfold validate. destruct (get_batch_two val_x val_y) as (ws & -> & _ & Hws).
  cbn [mbind result_bind]. by apply validate_loop_Ok.
Qed.

Lemma checkpoint_due_Ok (i : Z) :
  checkpoint_due save_every_n iterations i
  = Ok (bool_decide (due save_every_n iterations i)).
Proof.
  unfold checkpoint_due, py_mod.
  destruct (Z.eqb_spec save_every_n 0) as [|_]; [done|].
  cbn [mbind result_bind]. f_equal. unfold due.
  destruct (Z.eqb_spec (i mod save_every_n) 0), (Z.eqb_spec i iterations);
    simpl; symmetry; (by apply bool_decide_eq_true; tauto)
                     || (by apply bool_decide_eq_false; tauto).
Qed.

Lemma train_step_Ok (e b : Z) (x y : ndarray2) (st : loop_state m) :
  ∃ st', train_step m val_x val_y num_steps save_every_n n_batches iterations
                    e b x y st = Ok st' ∧
         (saved st').*1
         = (saved st).*1
           ++ filter (due save_every_n iterations) [(e * n_batches + b)%Z].
Proof.
  unfold train_step.
  destruct (train_run m (vars st) x y (new_state st)) as [[batch_loss st1] v].
  rewrite checkpoint_due_Ok. cbn [mbind result_bind].
  rewrite filter_cons, filter_nil.
  destruct (decide (due save_every_n iterations (e * n_batches + b))) as [Hd|Hd].
  - rewrite bool_decide_eq_true_2 by done.
    destruct (validate_Ok v) as [[val_loss st_v] ->]. cbn [mbind result_bind].
    eexists. split; [done|]. simpl. by rewrite fmap_app.
  - rewrite bool_decide_eq_false_2 by done.
    eexists. split; [done|]. simpl. by rewrite app_nil_r.
Qed.

Lemma train_windows_Ok (ws : list (list ndarray2)) (e b : Z) (st : loop_state m) :
  Forall (λ w, length w = 2) ws →
  ∃ st', train_windows m val_x val_y num_steps save_every_n n_batches iterations
                       ws e b st = Ok st' ∧
         (saved st').*1
         = (saved st).*1
           ++ filter (due save_every_n iterations)
                     ((λ j, (e * n_batches + b + Z.of_nat j)%Z)
                        <$> seq 0 (length ws)).
Proof.
  intros Hws. revert b st.
  induction Hws as [|w ws Hw _ IH]; intros b st.
  - exists st. simpl. by rewrite filter_nil, app_nil_r.
  - destruct w as [|x [|y [|? ?]]]; try done. cbn [train_windows].
    destruct (train_step_Ok e b x y st) as (st1 & -> & Hst1).
    cbn [mbind result_bind].
    destruct (IH (b + 1)%Z st1) as (st' & -> & Hst').
    exists st'. split; [done|]. rewrite Hst', Hst1, <- app_assoc. f_equal.
    rewrite <- filter_app. f_equal. cbn [length seq app]. rewrite fmap_cons.
    f_equal; [lia|].
    rewrite <- fmap_S_seq, <- list_fmap_compose.
    apply list_fmap_ext. intros _ j _. simpl. lia.
Qed.

End training.

Section training_epochs.
Import Training.

Variable m : model.
Variables train_x train_y val_x val_y : ndarray2.
Variables (B C s : nat) (save_every_n iterations : Z).
Hypothesis Hshape : shape train_x = (B, C).
Hypothesis Hs : 0 < s.
Hypothesis Hsave : save_every_n ≠ 0%Z.

Let n : nat := C / s.

Lemma iteration_numbers (e : nat) :
  (λ j, (Z.of_nat e * Z.of_nat n + 1 + Z.of_nat j)%Z) <$> seq 0 n
  = Z.of_nat <$> seq (e * n + 1) n.
Proof.
  replace (seq (e * n + 1) n) with (Nat.add (e * n + 1) <$> seq 0 n)
    by (rewrite fmap_add_seq; f_equal; lia).
  rewrite <- list_fmap_compose.
  apply list_fmap_ext. intros _ j _. simpl. lia.
Qed.

Lemma train_epoch_Ok (e : nat) (st : loop_state m) :
  ∃ st', train_epoch m train_x train_y val_x val_y (Z.of_nat s) save_every_n
                     (Z.of_nat n) iterations (Z.of_nat e) st = Ok st' ∧
         (saved st').*1
         = (saved st).*1
           ++ filter (due save_every_n iterations) (Z.of_nat <$> seq (e * n + 1) n).
Proof.
  unfold train_epoch.
  destruct (get_batch_two s Hs train_x train_y) as (ws & -> & Hlen & Hws).
  cbn [mbind result_bind]. rewrite Hshape in Hlen. simpl in Hlen. fold n in Hlen.
  destruct (train_windows_Ok m val_x val_y s save_every_n (Z.of_nat n) iterations
              Hs Hsave ws (Z.of_nat e) 1
              (LoopState (vars st) (zero_state m) 0%Q (saved st)) Hws)
    as (st' & -> & Hst').
  exists st'. split; [done|]. rewrite Hst', Hlen. simpl.
  by rewrite iteration_numbers.
Qed.

Lemma train_epochs_Ok (k e0 : nat) (st : loop_state m) :
  ∃ st', train_epochs m train_x train_y val_x val_y (Z.of_nat s) save_every_n
                      (Z.of_nat n) iterations (Z.of_nat <$> seq e0 k) st
         = Ok st' ∧
         (saved st').*1
         = (saved st).*1
           ++ filter (due save_every_n iterations)
                     (Z.of_nat <$> seq (e0 * n + 1) (k * n)).
Proof.
  revert e0 st. induction k as [|k IH]; intros e0 st.
  - exists st. simpl. by rewrite filter_nil, app_nil_r.
  - cbn [seq fmap list_fmap train_epochs].
    destruct (train_epoch_Ok e0 st) as (st1 & -> & Hst1).
    cbn [mbind result_bind].
    destruct (IH (S e0) st1) as (st' & -> & Hst').
    exists st'. split; [done|]. rewrite Hst', Hst1, <- app_assoc. f_equal.
    rewrite <- filter_app, <- fmap_app. do 2 f_equal.
    replace (S k * n) with (n + k * n) by lia.
    rewrite seq_app. do 2 f_equal. lia.
Qed.

End training_epochs.

Lemma train_loop_saved (m : Training.model)
    (train_x train_y val_x val_y : ndarray2) (B C s epochs : nat)
    (save_every_n : Z) (v0 : Training.variables m) :
  shape train_x = (B, C) → 0 < s → save_every_n ≠ 0%Z →
  let iterations := C / s * epochs in
  ∃ final,
    Training.train_loop m train_x train_y val_x val_y (Z.of_nat s)
                        (Z.of_nat epochs) save_every_n v0 = Ok final ∧
    (Training.saved final).*1
    = filter (due save_every_n (Z.of_nat iterations))
             (Z.of_nat <$> seq 1 iterations) ∧
    (0 < iterations →
     last (Training.saved final).*1 = Some (Z.of_nat iterations)).
Proof.
  intros Hshape Hs Hsave iterations. unfold Training.train_loop, int_div.
  rewrite Hshape. simpl.
  destruct (Z.eqb_spec (Z.of_nat s) 0) as [|_]; [lia|].
  cbn [mbind result_bind]. rewrite quot_of_nat by done.
  rewrite <- Nat2Z.inj_mul. fold iterations. unfold range. rewrite Nat2Z.id.
  destruct (train_epochs_Ok m train_x train_y val_x val_y B C s save_every_n
              (Z.of_nat iterations) Hshape Hs Hsave epochs 0
              (Training.LoopState v0 (Training.zero_state m) 0%Q []))
    as (final & -> & Hsaved).
  exists final. split; [done|]. simpl in Hsaved.
  replace (epochs * (C / s)) with iterations in Hsaved by (unfold iterations; lia).
  split; [done|]. intros Hpos. rewrite Hsaved.
  destruct iterations as [|k] eqn:Hk; [lia|].
  rewrite seq_S, fmap_app, filter_app. simpl.
  rewrite filter_cons_True, filter_nil by (right; f_equal; lia).
  rewrite last_snoc. f_equal.
Qed.


(** X17. The checkpoints of the training loops. With a non-zero
    [save_every_n] the loops raise nothing; they run the iterations
    [1 .. iterations], [iterations = n_batches * epochs], in this order, and
    write a checkpoint at exactly those whose number is a multiple of
    [save_every_n] or is [iterations]. So the last checkpoint is always the
    one of the last iteration. *)
Theorem train_loop_checkpoints (m : Training.model)
    (train_x train_y val_x val_y : ndarray2) (B C s epochs : nat)
    (save_every_n : Z) (v0 : Training.variables m) :
  shape train_x = (B, C) → 0 < s → save_every_n ≠ 0%Z →
  let iterations := C / s * epochs in
  ∃ final,
    Training.train_loop m train_x train_y val_x val_y (Z.of_nat s)
                        (Z.of_nat epochs) save_every_n v0 = Ok final ∧
    (Training.saved final).*1
    = filter (due save_every_n (Z.of_nat iterations))
             (Z.of_nat <$> seq 1 iterations) ∧
    (0 < iterations →
     last (Training.saved final).*1 = Some (Z.of_nat iterations)).
Proof. apply train_loop_saved. Qed.

Lemma train_loop_checkpoints_witness :
  let x := Array2 (2, 6) [[1; 2; 3; 4; 5; 6]; [11; 12; 13; 14; 15; 16]]%Z in
  ∃ final,
    Training.train_loop counting_model x x x x 2 2 4 0 = Ok final ∧
    (Training.saved final).*1
    = filter (due 4 6) (Z.of_nat <$> seq 1 6) ∧
    (0 < 6 → last (Training.saved final).*1 = Some 6%Z).
Proof.
  intros x.
  apply (train_loop_checkpoints counting_model x x x x 2 6 2 2 4 0).
  - reflexivity.
  - lia.
  - discriminate.
Defined.





(** X20. The whole cell: with positive [batch_size] and [num_steps], a
    corpus whose length is not a multiple of [batch_size * num_steps] and a
    non-zero [save_every_n], the cell raises nothing; it trains on
    [k = int(n * 0.9)] windows per epoch, [n] the number of full windows of
    the corpus, and writes its checkpoints at the multiples of
    [save_every_n] up to [k * epochs] and at [k * epochs]. *)
Theorem train_checkpoints (m : Training.model) (chars : list Z)
    (b t epochs : nat) (save_every_n : Z) (v0 : Training.variables m) :
  0 < b → 0 < t → length chars mod (b * t) ≠ 0 → save_every_n ≠ 0%Z →
  let n := length chars / (b * t) in
  let k := Z.to_nat (int_mul (Z.of_nat n) (9 # 10)) in
  ∃ final,
    Training.train m chars (Z.of_nat b) (Z.of_nat t) (Z.of_nat epochs)
                   save_every_n v0 = Ok final ∧
    k ≤ n ∧
    (Training.saved final).*1
    = filter (due save_every_n (Z.of_nat (k * epochs)))
             (Z.of_nat <$> seq 1 (k * epochs)).
Proof.
  intros Hb Ht Hmod Hsave n k. unfold Training.train.
  rewrite (split_data_spare chars b t (9 # 10) Hb Ht Hmod).
  cbn [mbind result_bind]. fold n.
  destruct (split_cut_bounds n t (9 # 10)) as [Hk Hcut];
    [unfold Qle; simpl; lia..|].
  fold k in Hk, Hcut. rewrite Hcut.
  assert (k * t ≤ n * t) as Hle by nia.
  destruct (train_loop_saved m
              (slice_cols None (Some (Z.of_nat (k * t)))
                 (Array2 (b, n * t) (chunks b (n * t) (take (b * (n * t)) chars))))
              (slice_cols None (Some (Z.of_nat (k * t)))
                 (Array2 (b, n * t)
                    (chunks b (n * t) (take (b * (n * t)) (drop 1 chars)))))
              (slice_cols (Some (Z.of_nat (k * t))) None
                 (Array2 (b, n * t) (chunks b (n * t) (take (b * (n * t)) chars))))
              (slice_cols (Some (Z.of_nat (k * t))) None
                 (Array2 (b, n * t)
                    (chunks b (n * t) (take (b * (n * t)) (drop 1 chars)))))
              b (k * t) t epochs save_every_n v0) as (final & Hfinal & Hsaved & _).
  - unfold slice_cols; simpl. rewrite clip_index_nonneg by lia. f_equal. lia.
  - done.
  - done.
  - rewrite Nat.div_mul in Hsaved by lia.
    exists final. by split_and!.
Qed.

Lemma train_checkpoints_witness :
  ∃ final,
    Training.train counting_model (Z.of_nat <$> seq 0 41) 2 2 2 3 0 = Ok final ∧
    9 ≤ 10 ∧
    (Training.saved final).*1 = filter (due 3 18) (Z.of_nat <$> seq 1 18).
Proof.
  exact (train_checkpoints counting_model (Z.of_nat <$> seq 0 41) 2 2 2 3 0
           ltac:(lia) ltac:(lia) ltac:(vm_compute; discriminate)
           ltac:(discriminate)).
Defined.
